(** * eslint-plugin-react-jsx-props-order: the `order` rule (src/rules/order.js)

    A shallow embedding of the rule that sorts the attributes of a JSX
    opening element by category, name length and name, keeping every
    spread attribute where it is, together with the properties of it that
    the specification states.

    Conventions of the embedding.
    - A JavaScript string is a [string]; one character stands for one code
      unit, so [String.length] is the [length] property.
    - An AST node that the rule compares with [===] carries its identity in
      a field [loc]: two attribute nodes are the same object exactly when
      their [loc]s are equal.
    - [sourceCode.getText(n)] is the field holding the text of [n]; it is an
      [option] because every call of it in the rule sits in a [try] block:
      [None] is the call that throws.
    - [String.prototype.localeCompare] belongs to the host; the rule is
      parameterised by it.
    - [Array.prototype.sort] belongs to the host too. [Array_sort] is the
      sort of V8, the engine that runs ESLint, as V8 carries it out on an
      array of fewer than 64 elements: the run that the array starts with
      is found and made ascending, and the elements behind it are put into
      it one by one, each at the place a binary search finds. V8 cuts an
      array of 64 elements or more into several such runs and merges them,
      which [Array_sort] leaves out; on elements on which the comparator is
      consistent that makes no difference, for there every stable sort
      returns the same array ([stable_sorted_unique_on]).
    - [context.report] is modelled by the list of reports that the handler
      returns, and the fixer function in a report by what it returns. *)

From stdpp Require Import base numbers list strings gmap sorting.

Local Open Scope string_scope.
Local Open Scope list_scope.
Local Open Scope Z_scope.

(** ** Strings *)

Module Str.

(** The line feed, written ['\n'] in the source. *)
Definition LF : Ascii.ascii := Ascii.ascii_of_nat 10.
Definition nl : string := String LF EmptyString.

(** [s.includes(c)] for a one-character needle. *)
Fixpoint includes_char (c : Ascii.ascii) (s : string) : bool :=
  match s with
  | EmptyString => false
  | String d rest => if Ascii.eqb c d then true else includes_char c rest
  end.

(** [s.split(c)] for a one-character separator, the current piece being
    accumulated in reverse in [piece]. *)
Fixpoint split_char_from (c : Ascii.ascii) (piece : string) (s : string) : list string :=
  match s with
  | EmptyString => [String.rev piece]
  | String d rest =>
      if Ascii.eqb c d then String.rev piece :: split_char_from c EmptyString rest
      else split_char_from c (String d piece) rest
  end.

Definition split_char (c : Ascii.ascii) (s : string) : list string :=
  split_char_from c EmptyString s.

(** [s.startsWith(p)]. *)
Definition startsWith (p s : string) : bool := String.prefix p s.

(** [s.endsWith(p)]. *)
Definition endsWith (p s : string) : bool :=
  (String.length p <=? String.length s)%nat
  && String.eqb (String.substring (String.length s - String.length p) (String.length p) s) p.

(** The character class [[A-Z]]. *)
Definition is_upper (c : Ascii.ascii) : bool :=
  let n := Ascii.nat_of_ascii c in (65 <=? n)%nat && (n <=? 90)%nat.

(** The regular expression [^p[A-Z]]. *)
Definition startsWith_then_upper (p s : string) : bool :=
  startsWith p s
  && match String.get (String.length p) s with
     | Some c => is_upper c
     | None => false
     end.

(** The character class [\s], on the code units below 256. *)
Definition is_space (c : Ascii.ascii) : bool :=
  let n := Ascii.nat_of_ascii c in
  (n =? 9)%nat || (n =? 10)%nat || (n =? 11)%nat || (n =? 12)%nat
  || (n =? 13)%nat || (n =? 32)%nat || (n =? 160)%nat.

(** [s.match(/^\s*/)[0]]: the longest prefix of white space. *)
Fixpoint leading_space (s : string) : string :=
  match s with
  | EmptyString => EmptyString
  | String c rest => if is_space c then String c (leading_space rest) else EmptyString
  end.

(** [xs.join(sep)]. *)
Definition join (sep : string) (xs : list string) : string := String.concat sep xs.

(** [xs.indexOf(x)], [-1] when [x] is absent. *)
Fixpoint indexOf_from (i : Z) (x : string) (xs : list string) : Z :=
  match xs with
  | [] => -1
  | y :: rest => if String.eqb x y then i else indexOf_from (i + 1) x rest
  end.

Definition indexOf (xs : list string) (x : string) : Z := indexOf_from 0 x xs.

(** [xs.includes(x)]. *)
Definition includes (xs : list string) (x : string) : bool :=
  existsb (String.eqb x) xs.

End Str.

(** ** The syntax tree, as far as the rule inspects it *)

(** [prop.value.expression]: the [type]s the rule tests for, and the rest. *)
Inductive Expression : Type :=
| ArrowFunctionExpression
| FunctionExpression
| Identifier (name : string)
| ObjectExpression
| LiteralExpression
| OtherExpression.

(** [prop.value.type]. *)
Inductive ValueType : Type :=
| Literal
| JSXExpressionContainer (expression : option Expression)
| OtherValue.

(** [prop.value], when it is not [null]. *)
Record Value : Type := mkValue {
  value_type : ValueType;
  value_text : option string
}.

(** [prop.name]: [typeof prop.name.name] is ["string"] for a
    [JSXIdentifier] only; in a [JSXNamespacedName] it is a node. *)
Inductive JSXName : Type :=
| JSXIdentifier (name : string)
| JSXNamespacedName (namespace name : string).

(** [prop.type], with the fields of each. *)
Inductive AttrType : Type :=
| JSXAttribute (name : JSXName) (value : option Value)
| JSXSpreadAttribute.

(** A member of [node.attributes]. *)
Record Attr : Type := mkAttr {
  loc : nat;
  attr_type : AttrType;
  attr_text : option string
}.

(** A [JSXOpeningElement]. *)
Record OpeningElement : Type := mkOpeningElement {
  name_text : option string;
  node_text : option string;
  attributes : list Attr;
  selfClosing : bool
}.

(** The rule's options object, and the [context] handed to [create]. *)
Record Options : Type := mkOptions {
  opt_reactPropsFirst : option bool;
  opt_reactPropsList : option (list string)
}.

Record Context : Type := mkContext {
  context_options : list Options
}.

(** What [context.report] receives. [report_fix] is [None] when the report has no
    [fix] property; otherwise it holds what the fixer function returns:
    [Some text] for [fixer.replaceText(node, text)], [None] for [null]. *)
Record Report : Type := mkReport {
  report_message : string;
  report_fix : option (option string)
}.

(** The replacement text a report carries, if any. *)
Definition replacement (r : Report) : option string :=
  match report_fix r with
  | Some (Some text) => Some text
  | _ => None
  end.

(** [attr.type === "JSXSpreadAttribute"]. *)
Definition is_spread (attr : Attr) : bool :=
  match attr_type attr with
  | JSXSpreadAttribute => true
  | JSXAttribute _ _ => false
  end.

(** [a.type === b.type]. *)
Definition same_type (a b : Attr) : bool := Bool.eqb (is_spread a) (is_spread b).

(** [a === b]. *)
Definition same_node (a b : Attr) : bool := (loc a =? loc b)%nat.

(** ** [meta.schema] *)

Module Schema.
Definition default_reactPropsFirst : bool := true.
Definition default_reactPropsList : list string :=
  ["key"; "ref"; "dangerouslySetInnerHTML"].
End Schema.

(** ** [Array.prototype.sort]

    The sort of V8 (third_party/v8/builtins/array-sort.tq), with the names
    of its functions and variables. For an array of fewer than 64 elements
    [ComputeMinRunLength] is the length of the array, so that
    [ArrayTimSortImpl] makes one run of the whole array: [CountAndMakeRun]
    finds the run the array starts with and [BinaryInsertionSort] extends
    it to the end; no two runs are ever merged. An array is a list here,
    and the part of the work array that is sorted already is a list of its
    own. *)

Section ArraySort.
Context {A : Type}.
Variable comparefn : A -> A -> Z.

(** The [for] loop of [CountAndMakeRun]: the elements of [rest] that
    continue the run after [previousElement], and the elements left over.
    A descending run ends at the first element that is not less than the
    one before it, an ascending run at the first that is less. *)
Fixpoint run_tail (isDescending : bool) (previousElement : A) (rest : list A)
    : list A * list A :=
  match rest with
  | [] => ([], [])
  | currentElement :: rest' =>
      let order := comparefn currentElement previousElement in
      if (if isDescending then 0 <=? order else order <? 0) then ([], rest)
      else
        let '(run, remaining) := run_tail isDescending currentElement rest' in
        (currentElement :: run, remaining)
  end.

(** [CountAndMakeRun]: the run the array starts with, and the rest of the
    array. The run descends if the second element compares less than the
    first, and is then reversed ([ReverseRange]). *)
Definition CountAndMakeRun (workArray : list A) : list A * list A :=
  match workArray with
  | elementHigh :: elementLow :: rest =>
      let isDescending := comparefn elementLow elementHigh <? 0 in
      let '(run, remaining) := run_tail isDescending elementLow rest in
      let run := elementHigh :: elementLow :: run in
      (if isDescending then reverse run else run, remaining)
  | _ => (workArray, [])
  end.

(** The [while (left < right)] loop of [BinaryInsertionSort], which looks
    for the place of [pivot] among the elements sorted already: [pivot] goes
    before [sorted[mid]] if it compares less than it and behind it if not.
    Every iteration halves [right - left] at least, so [steps] iterations
    are enough when [steps] is not less than [right - left]; [mid] is less
    than [right], so [sorted[mid]] is there ([binary_search_spec]). *)
Fixpoint binary_search (steps : nat) (pivot : A) (sorted : list A) (left right : nat) : nat :=
  match steps with
  | O => left
  | S steps' =>
      if (left <? right)%nat then
        let mid := (left + Nat.div2 (right - left))%nat in
        match sorted !! mid with
        | Some element =>
            if comparefn pivot element <? 0
            then binary_search steps' pivot sorted left mid
            else binary_search steps' pivot sorted (S mid) right
        | None => left
        end
      else left
  end.

(** One round of the [for] loop of [BinaryInsertionSort]: [pivot] is put
    at the place found, the elements from there on move up by one. *)
Definition insert_pivot (sorted : list A) (pivot : A) : list A :=
  let left := binary_search (length sorted) pivot sorted 0 (length sorted) in
  take left sorted ++ pivot :: drop left sorted.

(** [BinaryInsertionSort]: the elements behind the run are put into it one
    by one, from left to right. *)
Definition BinaryInsertionSort (run remaining : list A) : list A :=
  fold_left insert_pivot remaining run.

(** [ArrayTimSortImpl] where it makes one run: an array of fewer than two
    elements is returned as it is. For an array of fewer than 64 elements
    this is the array that V8 returns, whatever [comparefn] answers. *)
Definition Array_sort (l : list A) : list A :=
  if (length l <? 2)%nat then l
  else
    let '(run, remaining) := CountAndMakeRun l in
    BinaryInsertionSort run remaining.
End ArraySort.

(** ** [create(context)] *)

Inductive PropCategory : Type :=
| REACT_RESERVED
| SHORTHAND
| STRING
| VARIABLE
| FUNCTION
| MULTILINE_OBJECT
| MULTILINE_FUNCTION
| UNKNOWN.

Definition PROP_CATEGORIES (c : PropCategory) : Z :=
  match c with
  | REACT_RESERVED => -1
  | SHORTHAND => 0
  | STRING => 1
  | VARIABLE => 2
  | FUNCTION => 3
  | MULTILINE_OBJECT => 4
  | MULTILINE_FUNCTION => 5
  | UNKNOWN => 6
  end.

Module PATTERNS.
(** [/Handler$|Callback$|^on[A-Z]|^handle[A-Z]|^toggle[A-Z]/.test(s)] *)
Definition FUNCTION (s : string) : bool :=
  Str.endsWith "Handler" s || Str.endsWith "Callback" s
  || Str.startsWith_then_upper "on" s
  || Str.startsWith_then_upper "handle" s
  || Str.startsWith_then_upper "toggle" s.

(** [/Config$|Options$|Props$|Style$|Data$|^obj|^data/.test(s)] *)
Definition OBJECT (s : string) : bool :=
  Str.endsWith "Config" s || Str.endsWith "Options" s || Str.endsWith "Props" s
  || Str.endsWith "Style" s || Str.endsWith "Data" s
  || Str.startsWith "obj" s || Str.startsWith "data" s.
End PATTERNS.

Definition isFunction (expr : option Expression) : bool :=
  match expr with
  | None => false
  | Some ArrowFunctionExpression => true
  | Some FunctionExpression => true
  | Some (Identifier name) => PATTERNS.FUNCTION name
  | Some _ => false
  end.

Definition isObject (expr : option Expression) : bool :=
  match expr with
  | None => false
  | Some ObjectExpression => true
  | Some (Identifier name) => PATTERNS.OBJECT name
  | Some _ => false
  end.

(** [prop.name.name] when [prop] is a [JSXAttribute] whose [name.name] is a
    string; the guard that opens [getPropCategory] and the one inside
    [compareProps] both test exactly this. *)
Definition string_name (prop : Attr) : option string :=
  match attr_type prop with
  | JSXAttribute (JSXIdentifier name) _ => Some name
  | _ => None
  end.

(** [prop.value] of a [JSXAttribute]; [None] is [null]. *)
Definition attr_value (prop : Attr) : option Value :=
  match attr_type prop with
  | JSXAttribute _ value => value
  | JSXSpreadAttribute => None
  end.

Definition placeholder : string := "/* ESLint error: could not format attribute */".

Definition message_fix : string :=
  "JSX props should be sorted by type and length while preserving spread operator precedence".

Definition message_nofix : string :=
  "JSX props should be sorted by type and length (automatic fix unavailable to preserve all props)".

Section create.
Variable localeCompare : string -> string -> Z.
Variable context : Context.

(** [context.options[0] || {}] *)
Definition options : Options :=
  match context_options context with
  | o :: _ => o
  | [] => mkOptions None None
  end.

(** An array is truthy, the empty one too: only a missing list falls
    through [||]. *)
Definition reactPropsList : list string :=
  match opt_reactPropsList options with
  | Some l => l
  | None =>
      ["key"; "ref"; "dangerouslySetInnerHTML"; "children";
       "value"; "defaultValue"; "checked"; "defaultChecked";
       "className"; "style"; "id"; "name"]
  end.

(** [options.reactPropsFirst !== false] *)
Definition shouldPrioritizeReactProps : bool :=
  match opt_reactPropsFirst options with
  | Some false => false
  | _ => true
  end.

Definition getPropCategory (prop : Attr) : PropCategory :=
  match string_name prop with
  | None => UNKNOWN
  | Some propName =>
      if shouldPrioritizeReactProps && Str.includes reactPropsList propName
      then REACT_RESERVED
      else
        match attr_value prop with
        | None => SHORTHAND
        | Some value =>
            match value_text value with
            | None => UNKNOWN
            | Some propValueText =>
                let isMultiline := Str.includes_char Str.LF propValueText in
                if isMultiline then
                  match value_type value with
                  | JSXExpressionContainer expression =>
                      if isFunction expression then MULTILINE_FUNCTION
                      else if isObject expression then MULTILINE_OBJECT
                      else if PATTERNS.FUNCTION propName then MULTILINE_FUNCTION
                      else if PATTERNS.OBJECT propName then MULTILINE_OBJECT
                      else MULTILINE_OBJECT
                  | _ =>
                      if PATTERNS.FUNCTION propName then MULTILINE_FUNCTION
                      else if PATTERNS.OBJECT propName then MULTILINE_OBJECT
                      else MULTILINE_OBJECT
                  end
                else
                  match value_type value with
                  | Literal => STRING
                  | JSXExpressionContainer (Some LiteralExpression) => STRING
                  | JSXExpressionContainer expression =>
                      if isFunction expression then FUNCTION
                      else if PATTERNS.FUNCTION propName then FUNCTION
                      else if PATTERNS.OBJECT propName then VARIABLE
                      else VARIABLE
                  | OtherValue => VARIABLE
                  end
            end
        end
  end.

(** [sourceCode.getText(prop.value).split("\n").length]; the call throws
    when the text cannot be had. [compareProps] reaches it only for the
    two multiline categories, which [getPropCategory] gives only to an
    attribute whose value is there and has a text. *)
Definition value_lines (prop : Attr) : option Z :=
  match attr_value prop with
  | None => None
  | Some value =>
      match value_text value with
      | None => None
      | Some text => Some (Z.of_nat (length (Str.split_char Str.LF text)))
      end
  end.

Definition is_category (c d : PropCategory) : bool :=
  PROP_CATEGORIES c =? PROP_CATEGORIES d.

Definition compareProps (propA propB : Attr) : Z :=
  let categoryA := getPropCategory propA in
  let categoryB := getPropCategory propB in
  if is_category categoryA UNKNOWN || is_category categoryB UNKNOWN then 0
  else if negb (is_category categoryA categoryB)
  then PROP_CATEGORIES categoryA - PROP_CATEGORIES categoryB
  else
    match string_name propA, string_name propB with
    | Some nameA, Some nameB =>
        let indexA := Str.indexOf reactPropsList nameA in
        let indexB := Str.indexOf reactPropsList nameB in
        if is_category categoryA REACT_RESERVED && (negb (indexA =? -1) && negb (indexB =? -1))
        then indexA - indexB
        else if is_category categoryA REACT_RESERVED && negb (indexA =? -1) then -1
        else if is_category categoryA REACT_RESERVED && negb (indexB =? -1) then 1
        else if negb (String.length nameA =? String.length nameB)%nat
        then Z.of_nat (String.length nameA) - Z.of_nat (String.length nameB)
        else if negb (String.eqb nameA nameB) then localeCompare nameA nameB
        else if is_category categoryA MULTILINE_OBJECT || is_category categoryA MULTILINE_FUNCTION
        then
          match value_lines propA, value_lines propB with
          | Some linesA, Some linesB => linesA - linesB
          | _, _ => 0
          end
        else 0
    | _, _ => 0
    end.

(** The body of the [for] loop of [groupAttributesBySpread], from index
    [i] on; [n] is [attributes.length] and [rest] the attributes not yet
    visited. *)
Fixpoint groupAttributesBySpread_loop (n i : nat) (rest : list Attr)
    (groups : list (list Attr)) (currentGroup : list Attr) : list (list Attr) :=
  match rest with
  | [] => groups
  | attr :: rest' =>
      let currentGroup := currentGroup ++ [attr] in
      if is_spread attr || (i =? n - 1)%nat then
        if (0 <? length currentGroup)%nat
        then groupAttributesBySpread_loop n (S i) rest' (groups ++ [currentGroup]) []
        else groupAttributesBySpread_loop n (S i) rest' groups currentGroup
      else groupAttributesBySpread_loop n (S i) rest' groups currentGroup
  end.

Definition groupAttributesBySpread (attributes : list Attr) : list (list Attr) :=
  groupAttributesBySpread_loop (length attributes) 0 attributes [] [].

(** The [for] loop of [sortAttributesPreservingSpreadPrecedence]: the
    state is [(result, currentGroup)]. *)
Fixpoint sortAttributes_loop (rest : list Attr) (result currentGroup : list Attr)
    : list Attr * list Attr :=
  match rest with
  | [] => (result, currentGroup)
  | attr :: rest' =>
      if is_spread attr then
        let result :=
          if (0 <? length currentGroup)%nat
          then result ++ Array_sort compareProps currentGroup
          else result in
        sortAttributes_loop rest' (result ++ [attr]) []
      else sortAttributes_loop rest' result (currentGroup ++ [attr])
  end.

Definition sortAttributesPreservingSpreadPrecedence (attributes : list Attr) : list Attr :=
  if (length attributes <=? 1)%nat then attributes
  else
    let '(result, currentGroup) := sortAttributes_loop attributes [] [] in
    if (0 <? length currentGroup)%nat
    then result ++ Array_sort compareProps currentGroup
    else result.

(** The text of one attribute in the rewritten tag. *)
Definition attribute_text (attr : Attr) : string :=
  match attr_text attr with
  | Some text => text
  | None => placeholder
  end.

(** What the function returned by [createFix] returns when the host
    calls it. *)
Definition createFix (node : OpeningElement) (attributes sortedAttributes : list Attr)
    : option string :=
  if negb (length attributes =? length sortedAttributes)%nat then None
  else
    let originalAttrsSet : gset nat := list_to_set (loc <$> attributes) in
    if negb (forallb (fun attr => bool_decide (loc attr ∈ originalAttrsSet)) sortedAttributes)
    then None
    else
      match name_text node, node_text node with
      | Some tagName, Some nodeText =>
          let indent := Str.leading_space nodeText in
          let attrIndent := indent +:+ "  " in
          let sortedAttributesText :=
            Str.join (Str.nl +:+ attrIndent) (attribute_text <$> sortedAttributes) in
          Some ("<" +:+ tagName +:+ Str.nl +:+ attrIndent +:+ sortedAttributesText
                +:+ (if selfClosing node then " />" else ">"))
      | _, _ => None
      end.

Fixpoint areAttributesEquivalent_loop (attrsA attrsB : list Attr) : bool :=
  match attrsA, attrsB with
  | a :: restA, b :: restB =>
      if negb (same_type a b) then false
      else if negb (same_node a b) then false
      else areAttributesEquivalent_loop restA restB
  | _, _ => true
  end.

Definition areAttributesEquivalent (attrsA attrsB : list Attr) : bool :=
  if negb (length attrsA =? length attrsB)%nat then false
  else areAttributesEquivalent_loop attrsA attrsB.

(** [xs.includes(attr)] on an array of nodes. *)
Definition includes_node (xs : list Attr) (attr : Attr) : bool :=
  existsb (same_node attr) xs.

(** The handler from the comparison with the candidate order on: what it
    reports for [node] once [sortedAttributes] has been computed. *)
Definition report_unsorted (node : OpeningElement) (sortedAttributes : list Attr)
    : list Report :=
  let isSorted := areAttributesEquivalent (attributes node) sortedAttributes in
  if negb isSorted then
    let allPreserved :=
      (length (attributes node) =? length sortedAttributes)%nat
      && forallb (includes_node sortedAttributes) (attributes node) in
    if allPreserved
    then [mkReport message_fix (Some (createFix node (attributes node) sortedAttributes))]
    else [mkReport message_nofix None]
  else [].

(** The handler: the reports it makes for one opening element.
    [node.attributes] is an array in every opening element, and nothing
    outside the inner [try] blocks throws, so the guard [!node.attributes]
    and the outermost [catch] have no case of their own. *)
Definition JSXOpeningElement (node : OpeningElement) : list Report :=
  if (length (attributes node) <=? 1)%nat then []
  else report_unsorted node (sortAttributesPreservingSpreadPrecedence (attributes node)).

End create.

(** ** A host to run the rule on *)

Module Host.
(** Comparison of two names code unit by code unit. On names made of
    lower-case ASCII letters it agrees with [localeCompare]. *)
Fixpoint localeCompare (a b : string) : Z :=
  match a, b with
  | EmptyString, EmptyString => 0
  | EmptyString, String _ _ => -1
  | String _ _, EmptyString => 1
  | String c a', String d b' =>
      match Nat.compare (Ascii.nat_of_ascii c) (Ascii.nat_of_ascii d) with
      | Lt => -1
      | Gt => 1
      | Eq => localeCompare a' b'
      end
  end.

(** No options given: [context.options] is empty. *)
Definition no_options : Context := mkContext [].

(** [sourceCode.getText(node)]: the text of the file from [node.range[0]]
    up to [node.range[1]]. *)
Definition getText (text : string) (range_start range_end : nat) : string :=
  String.substring range_start (range_end - range_start) text.
End Host.

(** * Vocabulary of the properties *)

(** [a] may stand immediately before [b] in an array sorted by [comparefn]. *)
Definition in_order {A : Type} (comparefn : A -> A -> Z) (a b : A) : Prop :=
  comparefn a b <= 0.

(** A consistent comparator, as ECMAScript defines it for [sort]. *)
Record consistent {A : Type} (comparefn : A -> A -> Z) : Prop := {
  consistent_refl : forall a, comparefn a a = 0;
  consistent_sym : forall a b, comparefn a b = 0 -> comparefn b a = 0;
  consistent_eq_trans : forall a b c,
    comparefn a b = 0 -> comparefn b c = 0 -> comparefn a c = 0;
  consistent_lt_trans : forall a b c,
    comparefn a b < 0 -> comparefn b c < 0 -> comparefn a c < 0;
  consistent_gt_trans : forall a b c,
    0 < comparefn a b -> 0 < comparefn b c -> 0 < comparefn a c
}.

Definition non_spread (attr : Attr) : Prop := is_spread attr = false.

(** [groups_permuted l l']: [l'] is [l] with every spread attribute where it
    was and each run of attributes between two spread attributes, or
    between a spread attribute and an end of the list, permuted. *)
Inductive groups_permuted : list Attr -> list Attr -> Prop :=
| groups_permuted_last group group' :
    Forall non_spread group ->
    group ≡ₚ group' ->
    groups_permuted group group'
| groups_permuted_spread group group' spread rest rest' :
    Forall non_spread group ->
    group ≡ₚ group' ->
    is_spread spread = true ->
    groups_permuted rest rest' ->
    groups_permuted (group ++ spread :: rest) (group' ++ spread :: rest').

Section Vocabulary.
Variable localeCompare : string -> string -> Z.
Variable context : Context.

(** The loop of [sortAttributesPreservingSpreadPrecedence] and the step
    after it, as one recursion over the attributes still to visit. *)
Fixpoint sorted_from (rest currentGroup : list Attr) : list Attr :=
  match rest with
  | [] => Array_sort (compareProps localeCompare context) currentGroup
  | attr :: rest' =>
      if is_spread attr
      then Array_sort (compareProps localeCompare context) currentGroup
           ++ attr :: sorted_from rest' []
      else sorted_from rest' (currentGroup ++ [attr])
  end.

End Vocabulary.

(** A group as [groupAttributesBySpread] builds it: its last member closed
    it, and no member before the last is a spread attribute. *)
Definition closed_group (group : list Attr) : Prop :=
  exists init closing, group = init ++ [closing] /\ Forall non_spread init.

(** The loop of [groupAttributesBySpread] as one recursion over the
    attributes still to visit. *)
Fixpoint groups_from (rest currentGroup : list Attr) : list (list Attr) :=
  match rest with
  | [] => match currentGroup with [] => [] | _ => [currentGroup] end
  | attr :: rest' =>
      if is_spread attr then (currentGroup ++ [attr]) :: groups_from rest' []
      else groups_from rest' (currentGroup ++ [attr])
  end.

(** The candidate order has the length of the original and the same
    members, by identity. *)
Definition same_members (original candidate : list Attr) : Prop :=
  length candidate = length original
  /\ (forall attr, attr ∈ candidate -> loc attr ∈ loc <$> original)
  /\ (forall attr, attr ∈ original -> loc attr ∈ loc <$> candidate).

(** The opening tag written out with [attrs] as its attributes, one to a
    line, each line starting with [indent]. *)
Definition tag_text (tagName indent : string) (attrs : list Attr) (closing : string) : string :=
  "<" +:+ tagName
  +:+ String.concat "" ((fun attr => Str.nl +:+ indent +:+ attribute_text attr) <$> attrs)
  +:+ closing.

(** The default priority list, as the specification gives it. *)
Definition twelve_names : list string :=
  ["key"; "ref"; "dangerouslySetInnerHTML"; "children"; "value"; "defaultValue"; "checked";
   "defaultChecked"; "className"; "style"; "id"; "name"].

(** ** Elements to run the rule on *)

Module Example.
Definition literal (text : string) : option Value :=
  Some (mkValue Literal (Some text)).

Definition container (expression : Expression) (text : string) : option Value :=
  Some (mkValue (JSXExpressionContainer (Some expression)) (Some text)).

Definition attribute (l : nat) (name : string) (value : option Value) (text : string) : Attr :=
  mkAttr l (JSXAttribute (JSXIdentifier name) value) (Some text).

Definition spread (l : nat) (text : string) : Attr :=
  mkAttr l JSXSpreadAttribute (Some text).

Definition namespaced (l : nat) (namespace name : string) (value : option Value)
    (text : string) : Attr :=
  mkAttr l (JSXAttribute (JSXNamespacedName namespace name) value) (Some text).

(** The element of the README; its string literals are written with
    single quotes here. *)
Definition size := attribute 0 "size" (literal "'xs'") "size='xs'".
Definition key := attribute 1 "key" (literal "'test'") "key='test'".
Definition asChild := attribute 2 "asChild" None "asChild".
Definition buttonText :=
  attribute 3 "buttonText" (literal "'Click here!'") "buttonText='Click here!'".
Definition className :=
  attribute 4 "className" (literal "'rounded-md'") "className='rounded-md'".
Definition onClick :=
  attribute 5 "onClick" (container (Identifier "handleClick") "{handleClick}")
    "onClick={handleClick}".
Definition user :=
  attribute 6 "user" (container (Identifier "userData") "{userData}") "user={userData}".
Definition onBlur_value : string :=
  "{(event) => {" +:+ Str.nl +:+ "  setValue(event.target.value);" +:+ Str.nl +:+ "}}".
Definition onBlur :=
  attribute 7 "onBlur" (container ArrowFunctionExpression onBlur_value)
    ("onBlur=" +:+ onBlur_value).

Definition readme_attributes : list Attr :=
  [size; key; asChild; buttonText; className; onClick; user; onBlur].

(** The options object a caller gets who gives the list of [meta.schema]
    and of the README. *)
Definition schema_options : Context :=
  mkContext [mkOptions None (Some Schema.default_reactPropsList)].

(** [<Box b='1' {...rest} a />] and its parts. *)
Definition b1 := attribute 10 "b" (literal "'1'") "b='1'".
Definition rest := spread 11 "{...rest}".
Definition a := attribute 12 "a" None "a".

Definition box (attrs : list Attr) (selfClosing : bool) : OpeningElement :=
  mkOpeningElement (Some "Box") (Some "<Box />") attrs selfClosing.

(** Two multiline objects whose names have the same length. *)
Definition three_lines : string :=
  "{{" +:+ Str.nl +:+ "  x: 1," +:+ Str.nl +:+ "}}".
Definition two_lines : string := "{{" +:+ Str.nl +:+ "}}".
Definition abc := attribute 20 "abc" (container ObjectExpression three_lines) "abc".
Definition abd := attribute 21 "abd" (container ObjectExpression two_lines) "abd".
Definition abc' := attribute 22 "abc" (container ObjectExpression two_lines) "abc".

(** [xlink:href='#a']: an attribute whose name is not a string. *)
Definition xlink_href := namespaced 30 "xlink" "href" (literal "'#a'") "xlink:href='#a'".

(** [<Box zeta='1' b xlink:href='#a' a />] and its parts that are not
    above. *)
Definition zeta := attribute 31 "zeta" (literal "'1'") "zeta='1'".
Definition b := attribute 32 "b" None "b".

Definition unknown_third : OpeningElement :=
  mkOpeningElement (Some "Box") (Some "<Box zeta='1' b xlink:href='#a' a />")
    [zeta; b; xlink_href; a] true.

(** A line of a file on which [<Box b='1' a />] stands behind four spaces,
    and the element: its range is from 4 to 19, that of its name from 5
    to 8. *)
Definition indented_line : string := "    <Box b='1' a />".

Definition indented_box : OpeningElement :=
  mkOpeningElement (Some (Host.getText indented_line 5 8))
    (Some (Host.getText indented_line 4 19)) [b1; a] true.
End Example.

(** ** Vocabulary of the further properties *)

(** The attribute has a category other than [UNKNOWN]. *)
Definition classified (context : Context) (prop : Attr) : Prop :=
  getPropCategory context prop <> UNKNOWN.

(** What an attribute is ranked by first: its category, then the place of
    its name in the list if it is reserved and the length of its name if it
    is not. *)
Definition rank (context : Context) (prop : Attr) : Z * Z :=
  (PROP_CATEGORIES (getPropCategory context prop),
   match string_name prop with
   | Some name =>
       if is_category (getPropCategory context prop) REACT_RESERVED
       then Str.indexOf (reactPropsList context) name
       else Z.of_nat (String.length name)
   | None => 0
   end).

Definition rank_le (r s : Z * Z) : Prop :=
  r.1 < s.1 \/ (r.1 = s.1 /\ r.2 <= s.2).

(** One group of [groupAttributesBySpread] with its attributes sorted and
    the spread attribute that closes it, if any, left at its end. *)
Definition sort_within (localeCompare : string -> string -> Z) (context : Context)
    (group : list Attr) : list Attr :=
  Array_sort (compareProps localeCompare context) (filter non_spread group)
  ++ filter (fun attr => is_spread attr = true) group.

(** A comparator that is consistent, in the sense of ECMAScript, on the
    values that satisfy [P]. *)
Record consistent_on {A : Type} (P : A -> Prop) (comparefn : A -> A -> Z) : Prop := {
  consistent_on_refl : forall a, P a -> comparefn a a = 0;
  consistent_on_sym : forall a b, P a -> P b -> comparefn a b = 0 -> comparefn b a = 0;
  consistent_on_eq_trans : forall a b c, P a -> P b -> P c ->
    comparefn a b = 0 -> comparefn b c = 0 -> comparefn a c = 0;
  consistent_on_lt_trans : forall a b c, P a -> P b -> P c ->
    comparefn a b < 0 -> comparefn b c < 0 -> comparefn a c < 0;
  consistent_on_gt_trans : forall a b c, P a -> P b -> P c ->
    0 < comparefn a b -> 0 < comparefn b c -> 0 < comparefn a c
}.

(** The first of four differences that is not [0], and [0] if none is. *)
Definition first_difference (d1 d2 d3 d4 : Z) : Z :=
  if d1 =? 0 then if d2 =? 0 then if d3 =? 0 then d4 else d3 else d2 else d1.

(** The number of lines of the value of an attribute of a multiline
    category, which is the last thing [compareProps] looks at; [0] for the
    other categories. *)
Definition last_resort (context : Context) (prop : Attr) : Z :=
  if is_category (getPropCategory context prop) MULTILINE_OBJECT
     || is_category (getPropCategory context prop) MULTILINE_FUNCTION
  then match value_lines prop with Some lines => lines | None => 0 end
  else 0.

(** * Properties *)

(** ** The sort *)

Lemma Sorted_Forall_impl {A : Type} (R R' : A -> A -> Prop) (P : A -> Prop) l :
  (forall a b, P a -> P b -> R a b -> R' a b) ->
  Forall P l -> Sorted R l -> Sorted R' l.
Proof.
  intros Himpl HP Hsorted.
  induction Hsorted as [|a l Hl IH Hhd]; [constructor|].
  apply Forall_cons in HP as [Ha HP].
  constructor; [by apply IH|].
  destruct Hhd as [|b l' Hab]; constructor.
  apply Forall_cons in HP as [Hb _]. by apply Himpl.
Qed.

(** A sorted list stays sorted when [pivot] is put at a place where its
    neighbours, if any, are in order with it. *)
Lemma Sorted_insert {A : Type} (R : A -> A -> Prop) sorted pivot k :
  Sorted R sorted ->
  (k = 0%nat \/ exists x, sorted !! pred k = Some x /\ R x pivot) ->
  (k = length sorted \/ exists y, sorted !! k = Some y /\ R pivot y) ->
  Sorted R (take k sorted ++ pivot :: drop k sorted).
Proof.
  intros Hsorted. revert k.
  induction Hsorted as [|a l Hl IH Hhd]; intros k Hbefore Hafter.
  { rewrite take_nil, drop_nil. repeat constructor. }
  destruct k as [|k]; simpl.
  - constructor; [by constructor|]. constructor.
    destruct Hafter as [|(y & [= <-] & Hy)]; done.
  - destruct Hbefore as [|(x & Hx & Hxp)]; [done|]. simpl in Hx.
    constructor.
    + apply IH.
      * destruct k as [|k]; [by left|]. right. by exists x.
      * destruct Hafter as [Hlen|Hy]; [left; simpl in Hlen; lia|by right].
    + destruct k as [|k]; simpl.
      * injection Hx as <-. by constructor.
      * destruct Hhd as [|b l' Hab]; simpl; by constructor.
Qed.

Section ArraySortFacts.
Context {A : Type}.
Variable comparefn : A -> A -> Z.

Lemma run_tail_app isDescending previousElement rest :
  (run_tail comparefn isDescending previousElement rest).1
  ++ (run_tail comparefn isDescending previousElement rest).2 = rest.
Proof.
  revert previousElement.
  induction rest as [|current rest IH]; intros previous; simpl; [done|].
  destruct (if isDescending then _ else _); [done|].
  specialize (IH current). destruct (run_tail _ _ current rest) as [run remaining].
  simpl in *. by rewrite IH.
Qed.

(** What [CountAndMakeRun] returns before it reverses a descending run. *)
Lemma CountAndMakeRun_app l :
  exists run,
    run ++ (CountAndMakeRun comparefn l).2 = l
    /\ ((CountAndMakeRun comparefn l).1 = run
        \/ (CountAndMakeRun comparefn l).1 = reverse run).
Proof.
  destruct l as [|high [|low rest]]; simpl; [by exists []; auto|by exists [high]; auto|].
  pose proof (run_tail_app (comparefn low high <? 0) low rest) as Happ.
  destruct (run_tail _ _ low rest) as [run remaining]. simpl in *.
  exists (high :: low :: run). split; [by rewrite <- Happ|].
  destruct (comparefn low high <? 0); auto.
Qed.

Lemma CountAndMakeRun_Permutation l :
  (CountAndMakeRun comparefn l).1 ++ (CountAndMakeRun comparefn l).2 ≡ₚ l.
Proof.
  destruct (CountAndMakeRun_app l) as (run & Happ & [->| ->]).
  - by rewrite Happ.
  - by rewrite reverse_Permutation, Happ.
Qed.

Lemma insert_pivot_Permutation sorted pivot :
  insert_pivot comparefn sorted pivot ≡ₚ sorted ++ [pivot].
Proof.
  unfold insert_pivot.
  rewrite <- Permutation_middle, take_drop. apply Permutation_cons_append.
Qed.

Lemma BinaryInsertionSort_Permutation run remaining :
  BinaryInsertionSort comparefn run remaining ≡ₚ run ++ remaining.
Proof.
  unfold BinaryInsertionSort. revert run.
  induction remaining as [|pivot remaining IH]; intros run; simpl.
  - by rewrite app_nil_r.
  - rewrite IH, insert_pivot_Permutation. by rewrite <- app_assoc.
Qed.

Lemma Array_sort_Permutation l : Array_sort comparefn l ≡ₚ l.
Proof.
  unfold Array_sort. destruct (length l <? 2)%nat; [done|].
  pose proof (CountAndMakeRun_Permutation l) as H.
  destruct (CountAndMakeRun comparefn l) as [run remaining].
  by rewrite BinaryInsertionSort_Permutation.
Qed.

Lemma Array_sort_length l : length (Array_sort comparefn l) = length l.
Proof. by rewrite Array_sort_Permutation. Qed.

Lemma Array_sort_Forall (P : A -> Prop) l :
  Forall P l -> Forall P (Array_sort comparefn l).
Proof. by rewrite Array_sort_Permutation. Qed.

(** The run that [run_tail] continues is a chain: every member compares
    less than the one before it if the run descends, and not less if it
    ascends. *)
Lemma run_tail_Sorted (isDescending : bool) previousElement rest :
  Sorted (fun a b => if isDescending then comparefn b a < 0 else 0 <= comparefn b a)
    (previousElement :: (run_tail comparefn isDescending previousElement rest).1).
Proof.
  revert previousElement.
  induction rest as [|current rest IH]; intros previous; simpl.
  { repeat constructor. }
  destruct isDescending.
  - destruct (Z.leb_spec 0 (comparefn current previous)); simpl.
    { repeat constructor. }
    specialize (IH current). destruct (run_tail _ _ current rest) as [run remaining].
    constructor; [done|]. by constructor.
  - destruct (Z.ltb_spec (comparefn current previous) 0); simpl.
    { repeat constructor. }
    specialize (IH current). destruct (run_tail _ _ current rest) as [run remaining].
    constructor; [done|]. by constructor.
Qed.

(** The place [binary_search] finds: the member before it, if any, is not
    greater than [pivot], and the member at it, if any, is greater. *)
Lemma binary_search_spec steps pivot sorted left right :
  (right - left <= steps)%nat ->
  (left <= right <= length sorted)%nat ->
  (left = 0%nat \/ exists x, sorted !! pred left = Some x /\ 0 <= comparefn pivot x) ->
  (right = length sorted \/ exists y, sorted !! right = Some y /\ comparefn pivot y < 0) ->
  let k := binary_search comparefn steps pivot sorted left right in
  (k = 0%nat \/ exists x, sorted !! pred k = Some x /\ 0 <= comparefn pivot x)
  /\ (k = length sorted \/ exists y, sorted !! k = Some y /\ comparefn pivot y < 0).
Proof.
  revert left right.
  induction steps as [|steps IH]; intros left right Hsteps Hrange Hleft Hright; simpl.
  { assert (left = right) as -> by lia. done. }
  destruct (Nat.ltb_spec left right) as [Hlt|Hge].
  2: { assert (left = right) as -> by lia. done. }
  assert (Hmid : (left <= left + Nat.div2 (right - left) < right)%nat).
  { pose proof (Nat.lt_div2 (right - left)) as Hhalf.
    assert (Hwidth : (0 < right - left)%nat) by lia. specialize (Hhalf Hwidth).
    generalize dependent (Nat.div2 (right - left)). intros. lia. }
  set (mid := (left + Nat.div2 (right - left))%nat) in *. clearbody mid.
  destruct (lookup_lt_is_Some_2 sorted mid) as [element Helement]; [lia|].
  rewrite Helement.
  destruct (Z.ltb_spec (comparefn pivot element) 0) as [Hless|Hnot_less].
  - apply IH; [lia|lia|done|]. right. by exists element.
  - apply IH; [lia|lia| |done]. right. by exists element.
Qed.

Section Sorted.
Variable R : A -> A -> Prop.
Variable P : A -> Prop.
Hypothesis not_less_R : forall a b, P a -> P b -> 0 <= comparefn b a -> R a b.
Hypothesis less_R : forall a b, P a -> P b -> comparefn a b < 0 -> R a b.

Lemma CountAndMakeRun_Sorted l :
  Forall P l -> Sorted R (CountAndMakeRun comparefn l).1.
Proof.
  intros HP.
  destruct l as [|high [|low rest]]; simpl; [constructor|repeat constructor|].
  pose proof (run_tail_app (comparefn low high <? 0) low rest) as Happ.
  pose proof (run_tail_Sorted (comparefn low high <? 0) low rest) as Hchain.
  destruct (run_tail _ _ low rest) as [run remaining]. simpl in *.
  assert (HPrun : Forall P (high :: low :: run)).
  { rewrite <- Happ in HP. rewrite !Forall_cons, Forall_app in HP.
    rewrite !Forall_cons. tauto. }
  destruct (Z.ltb_spec (comparefn low high) 0) as [Hless|Hnot_less].
  - apply (Sorted_Forall_impl (flip (fun a b => comparefn b a < 0)) _ P).
    + intros a b Ha Hb Hab. by apply less_R.
    + by apply Forall_reverse.
    + apply Sorted_reverse. constructor; [done|]. by constructor.
  - apply (Sorted_Forall_impl (fun a b => 0 <= comparefn b a) _ P).
    + intros a b Ha Hb Hab. by apply not_less_R.
    + done.
    + constructor; [done|]. by constructor.
Qed.

Lemma insert_pivot_Sorted sorted pivot :
  Forall P sorted -> P pivot -> Sorted R sorted ->
  Sorted R (insert_pivot comparefn sorted pivot).
Proof.
  intros HP Hpivot Hsorted. unfold insert_pivot.
  destruct (binary_search_spec (length sorted) pivot sorted 0 (length sorted))
    as [Hbefore Hafter]; [lia|lia|by left|by left|].
  apply Sorted_insert; [done| |].
  - destruct Hbefore as [|(x & Hx & Hcompare)]; [by left|right].
    exists x. split; [done|].
    apply not_less_R; [|done|done]. by eapply Forall_lookup_1.
  - destruct Hafter as [|(y & Hy & Hcompare)]; [by left|right].
    exists y. split; [done|].
    apply less_R; [done| |done]. by eapply Forall_lookup_1.
Qed.

Lemma BinaryInsertionSort_Sorted run remaining :
  Forall P run -> Forall P remaining -> Sorted R run ->
  Sorted R (BinaryInsertionSort comparefn run remaining).
Proof.
  unfold BinaryInsertionSort. revert run.
  induction remaining as [|pivot remaining IH]; intros run Hrun Hremaining Hsorted;
    simpl; [done|].
  apply Forall_cons in Hremaining as [Hpivot Hremaining].
  apply IH; [|done|by apply insert_pivot_Sorted].
  rewrite insert_pivot_Permutation. apply Forall_app. split; [done|]. by constructor.
Qed.

(** Neighbours in the sorted array are related by every relation that
    holds of [a] and [b] whenever [b] does not compare less than [a], or
    [a] compares less than [b]. *)
Lemma Array_sort_Sorted_by l : Forall P l -> Sorted R (Array_sort comparefn l).
Proof.
  intros HP. unfold Array_sort.
  destruct (length l <? 2)%nat eqn:Hshort.
  { destruct l as [|a [|b l]]; [constructor|repeat constructor|done]. }
  pose proof (CountAndMakeRun_Permutation l) as Hperm.
  pose proof (CountAndMakeRun_Sorted l HP) as Hrun.
  destruct (CountAndMakeRun comparefn l) as [run remaining]. simpl in *.
  rewrite <- Hperm in HP. apply Forall_app in HP as [HPrun HPremaining].
  by apply BinaryInsertionSort_Sorted.
Qed.
End Sorted.



(** The sort returns an ascending run, and so an array that it leaves as
    it is, as soon as the comparison never says "less" both ways. *)
Hypothesis comparefn_antisym : forall a b, comparefn a b < 0 -> 0 <= comparefn b a.


End ArraySortFacts.

(** ** The sort on a comparator that is consistent on some values *)

Section ConsistentOn.
Context {A : Type}.
Variable P : A -> Prop.
Variable comparefn : A -> A -> Z.
Hypothesis comparefn_consistent_on : consistent_on P comparefn.

Lemma consistent_on_gt_lt a b : P a -> P b -> 0 < comparefn a b -> comparefn b a < 0.
Proof.
  destruct comparefn_consistent_on as [Hrefl Hsym _ _ Hgt]. intros Ha Hb Hab.
  destruct (Z.lt_trichotomy (comparefn b a) 0) as [|[Hba|Hba]]; [done| |].
  - apply Hsym in Hba; [lia|done|done].
  - pose proof (Hgt _ _ _ Ha Hb Ha Hab Hba). pose proof (Hrefl a Ha). lia.
Qed.

Lemma consistent_on_lt_gt a b : P a -> P b -> comparefn a b < 0 -> 0 < comparefn b a.
Proof.
  destruct comparefn_consistent_on as [Hrefl Hsym _ Hlt _]. intros Ha Hb Hab.
  destruct (Z.lt_trichotomy (comparefn b a) 0) as [Hba|[Hba|]]; [| |done].
  - pose proof (Hlt _ _ _ Ha Hb Ha Hab Hba). pose proof (Hrefl a Ha). lia.
  - apply Hsym in Hba; [lia|done|done].
Qed.

Lemma consistent_on_in_order_trans a b c :
  P a -> P b -> P c ->
  in_order comparefn a b -> in_order comparefn b c -> in_order comparefn a c.
Proof.
  destruct comparefn_consistent_on as [Hrefl Hsym Heq Hlt Hgt].
  unfold in_order. intros Ha Hb Hc Hab Hbc.
  destruct (Z.lt_trichotomy (comparefn a c) 0) as [|[|Hac]]; [lia|lia|].
  exfalso.
  destruct (Z.lt_trichotomy (comparefn a b) 0) as [Hab'|[Hab'|]]; [| |lia];
    destruct (Z.lt_trichotomy (comparefn b c) 0) as [Hbc'|[Hbc'|]]; try lia.
  - pose proof (Hlt _ _ _ Ha Hb Hc Hab' Hbc'). lia.
  - pose proof (Hgt _ _ _ Hb Ha Hc (consistent_on_lt_gt _ _ Ha Hb Hab') Hac). lia.
  - pose proof (Hgt _ _ _ Ha Hc Hb Hac (consistent_on_lt_gt _ _ Hb Hc Hbc')). lia.
  - pose proof (Heq _ _ _ Ha Hb Hc Hab' Hbc'). lia.
Qed.

(** What is less than a member is less than all that may follow it. *)
Lemma consistent_on_lt_in_order a b c :
  P a -> P b -> P c ->
  comparefn a b < 0 -> in_order comparefn b c -> comparefn a c < 0.
Proof.
  destruct comparefn_consistent_on as [Hrefl Hsym Heq Hlt Hgt].
  unfold in_order. intros Ha Hb Hc Hab Hbc.
  destruct (Z.lt_trichotomy (comparefn b c) 0) as [Hbc'|[Hbc'|]]; [|clear Hbc|lia].
  { by apply (Hlt a b c). }
  destruct (Z.lt_trichotomy (comparefn a c) 0) as [|[Hac|Hac]]; [done| |]; exfalso.
  - pose proof (Heq _ _ _ Ha Hc Hb Hac (Hsym _ _ Hb Hc Hbc')). lia.
  - pose proof (Hlt _ _ _ Hc Ha Hb (consistent_on_gt_lt _ _ Ha Hc Hac) Hab).
    pose proof (Hsym _ _ Hb Hc Hbc'). lia.
Qed.

(** Two members that tie with one third member tie. *)
Lemma consistent_on_tie x a b :
  P x -> P a -> P b -> comparefn x a = 0 -> comparefn x b = 0 -> comparefn a b = 0.
Proof.
  destruct comparefn_consistent_on as [_ Hsym Heq _ _]. intros Hx Ha Hb Hxa Hxb.
  apply (Heq a x b); auto.
Qed.

Lemma Sorted_StronglySorted_by (R : A -> A -> Prop) l :
  (forall a b c, P a -> P b -> P c -> R a b -> R b c -> R a c) ->
  Forall P l -> Sorted R l -> StronglySorted R l.
Proof.
  intros Htrans HP Hsorted.
  induction Hsorted as [|a l Hl IH Hhd]; [constructor|].
  apply Forall_cons in HP as [Ha HP].
  specialize (IH HP). constructor; [done|].
  destruct Hhd as [|b l Hab]; [constructor|].
  apply Forall_cons in HP as [Hb HP].
  apply StronglySorted_inv in IH as [_ Hall].
  constructor; [done|].
  rewrite Forall_forall in Hall, HP. apply Forall_forall. intros c Hc.
  apply (Htrans a b c); auto.
Qed.

Lemma Sorted_StronglySorted_on l :
  Forall P l -> Sorted (in_order comparefn) l -> StronglySorted (in_order comparefn) l.
Proof. apply Sorted_StronglySorted_by, consistent_on_in_order_trans. Qed.

(** The result is sorted: no member compares greater than a later one. *)
Lemma Array_sort_StronglySorted_on l :
  Forall P l -> StronglySorted (in_order comparefn) (Array_sort comparefn l).
Proof.
  intros HP. apply Sorted_StronglySorted_on; [by apply Array_sort_Forall|].
  apply (Array_sort_Sorted_by _ _ P); [| |done]; unfold in_order.
  - intros a b Ha Hb Hba.
    destruct (Z.le_gt_cases (comparefn a b) 0) as [|Hab]; [done|].
    apply consistent_on_gt_lt in Hab; [lia|done|done].
  - intros a b _ _. lia.
Qed.

Lemma filter_none (Q : A -> Prop) `{!forall y, Decision (Q y)} l :
  Forall (fun y => ~ Q y) l -> filter Q l = [].
Proof.
  induction 1 as [|y l Hy _ IH]; [done|]. by rewrite filter_cons_False.
Qed.

(** Reversing a descending run changes the order of no two members that
    tie, for no two of its members do. *)
Lemma descending_run_stable l x :
  P x -> Forall P l ->
  Sorted (fun a b => comparefn b a < 0) l ->
  filter (fun y => comparefn x y = 0) (reverse l) = filter (fun y => comparefn x y = 0) l.
Proof.
  destruct comparefn_consistent_on as [_ _ _ Hlt _].
  intros Hx HP Hsorted.
  apply (Sorted_StronglySorted_by _ l) in Hsorted; [|clear Hsorted|done].
  2: { intros a b c Ha Hb Hc Hba Hcb. by apply (Hlt c b a). }
  induction Hsorted as [|a l Hl IH Hall]; [done|].
  apply Forall_cons in HP as [Ha HP].
  rewrite reverse_cons, filter_app, IH, !filter_cons, filter_nil by done.
  destruct (decide (comparefn x a = 0)) as [Hxa|]; [|by rewrite app_nil_r].
  rewrite filter_none; [done|].
  rewrite Forall_forall in Hall, HP. apply Forall_forall. intros y Hy Hxy.
  pose proof (consistent_on_tie x y a Hx (HP y Hy) Ha Hxy Hxa).
  specialize (Hall y Hy). simpl in Hall. lia.
Qed.

Lemma CountAndMakeRun_stable l x :
  P x -> Forall P l ->
  filter (fun y => comparefn x y = 0) (CountAndMakeRun comparefn l).1
  ++ filter (fun y => comparefn x y = 0) (CountAndMakeRun comparefn l).2
  = filter (fun y => comparefn x y = 0) l.
Proof.
  intros Hx HP.
  destruct l as [|high [|low rest]]; simpl; [done|by rewrite app_nil_r|].
  pose proof (run_tail_app comparefn (comparefn low high <? 0) low rest) as Happ.
  pose proof (run_tail_Sorted comparefn (comparefn low high <? 0) low rest) as Hchain.
  destruct (run_tail _ _ low rest) as [run remaining]. simpl in *.
  subst rest.
  change (high :: low :: run ++ remaining) with ((high :: low :: run) ++ remaining).
  rewrite (filter_app _ (high :: low :: run)). f_equal.
  destruct (Z.ltb_spec (comparefn low high) 0) as [Hless|]; [|done].
  apply descending_run_stable; [done| |].
  - rewrite !Forall_cons, Forall_app in HP. rewrite !Forall_cons. tauto.
  - constructor; [done|]. by constructor.
Qed.

(** [pivot] is put behind every member it ties with. *)
Lemma insert_pivot_stable sorted pivot x :
  P x -> P pivot -> Forall P sorted ->
  StronglySorted (in_order comparefn) sorted ->
  filter (fun y => comparefn x y = 0) (insert_pivot comparefn sorted pivot)
  = filter (fun y => comparefn x y = 0) (sorted ++ [pivot]).
Proof.
  destruct comparefn_consistent_on as [_ Hsym _ _ _].
  intros Hx Hpivot HP Hsorted. unfold insert_pivot.
  destruct (binary_search_spec comparefn (length sorted) pivot sorted 0 (length sorted))
    as [_ Hafter]; [lia|lia|by left|by left|].
  set (left := binary_search _ _ _ _ _ _) in *. clearbody left.
  rewrite <- (take_drop left sorted) at 3.
  rewrite !filter_app, !filter_cons, filter_nil, <- app_assoc. f_equal.
  destruct (decide (comparefn x pivot = 0)) as [Hxp|]; [|by rewrite app_nil_r].
  rewrite filter_none; [done|].
  destruct Hafter as [->|(y & Hy & Hless)]; [by rewrite drop_all|].
  rewrite <- (take_drop left sorted) in Hsorted.
  apply StronglySorted_app in Hsorted as (_ & _ & Hsorted).
  rewrite (drop_S _ _ _ Hy) in Hsorted |- *.
  apply StronglySorted_inv in Hsorted as [_ Hall].
  assert (Hy' : P y) by by eapply Forall_lookup_1.
  assert (Hdrop : Forall P (drop (S left) sorted)) by by apply Forall_drop.
  assert (Hgreater : forall z, P z -> comparefn pivot z < 0 -> ~ comparefn x z = 0).
  { intros z Hz Hpz Hxz.
    pose proof (consistent_on_tie x pivot z Hx Hpivot Hz Hxp Hxz). lia. }
  constructor; [by apply Hgreater|].
  rewrite Forall_forall in Hall, Hdrop. apply Forall_forall. intros z Hz.
  apply Hgreater; [by apply Hdrop|].
  apply (consistent_on_lt_in_order pivot y z); auto.
Qed.

Lemma BinaryInsertionSort_stable run remaining x :
  P x -> Forall P run -> Forall P remaining ->
  Sorted (in_order comparefn) run ->
  filter (fun y => comparefn x y = 0) (BinaryInsertionSort comparefn run remaining)
  = filter (fun y => comparefn x y = 0) (run ++ remaining).
Proof.
  intros Hx. unfold BinaryInsertionSort. revert run.
  induction remaining as [|pivot remaining IH]; intros run Hrun Hremaining Hsorted; simpl.
  { by rewrite app_nil_r. }
  apply Forall_cons in Hremaining as [Hpivot Hremaining].
  rewrite IH; [|..|done| ].
  - rewrite !filter_app, insert_pivot_stable by (done || by apply Sorted_StronglySorted_on).
    change (pivot :: remaining) with ([pivot] ++ remaining).
    by rewrite !filter_app, <- app_assoc.
  - rewrite insert_pivot_Permutation. apply Forall_app. split; [done|]. by constructor.
  - apply (insert_pivot_Sorted _ _ P); try done; unfold in_order.
    + intros a b Ha Hb Hba.
      destruct (Z.le_gt_cases (comparefn a b) 0) as [|Hab]; [done|].
      apply consistent_on_gt_lt in Hab; [lia|done|done].
    + intros a b _ _. lia.
Qed.

(** The sort is stable: members that compare equal keep their order. *)
Lemma Array_sort_stable_on l x :
  P x -> Forall P l ->
  filter (fun y => comparefn x y = 0) (Array_sort comparefn l)
  = filter (fun y => comparefn x y = 0) l.
Proof.
  intros Hx HP. unfold Array_sort.
  destruct (length l <? 2)%nat; [done|].
  pose proof (CountAndMakeRun_Permutation comparefn l) as Hperm.
  pose proof (CountAndMakeRun_stable l x Hx HP) as Hstable.
  assert (Hrun : Sorted (in_order comparefn) (CountAndMakeRun comparefn l).1).
  { apply (CountAndMakeRun_Sorted _ _ P); try done; unfold in_order.
    - intros a b Ha Hb Hba.
      destruct (Z.le_gt_cases (comparefn a b) 0) as [|Hab]; [done|].
      apply consistent_on_gt_lt in Hab; [lia|done|done].
    - intros a b _ _. lia. }
  destruct (CountAndMakeRun comparefn l) as [run remaining]. simpl in *.
  rewrite <- Hperm in HP. apply Forall_app in HP as [HPrun HPremaining].
  by rewrite BinaryInsertionSort_stable, filter_app.
Qed.
(** Whatever stable sort the host has, on members on which the comparator
    is consistent it returns one and the same array: two sorted lists in
    which the members comparing equal are in the same order are equal. *)
Lemma stable_sorted_unique_on l l' :
  Forall P l -> Forall P l' ->
  StronglySorted (in_order comparefn) l ->
  StronglySorted (in_order comparefn) l' ->
  (forall x, P x ->
     filter (fun y => comparefn x y = 0) l' = filter (fun y => comparefn x y = 0) l) ->
  l' = l.
Proof.
  destruct comparefn_consistent_on as [Hrefl Hsym Heq _ _].
  intros HP HP' Hl. revert l' HP'.
  induction Hl as [|a l Hl IH Ha]; intros l' HP' Hl' Hfilter.
  - destruct l' as [|b l']; [done|].
    apply Forall_cons in HP' as [Hb _].
    specialize (Hfilter b Hb). rewrite filter_cons_True in Hfilter by by apply Hrefl.
    done.
  - apply Forall_cons in HP as [Pa HP].
    destruct Hl' as [|b l' Hl' Hb].
    { specialize (Hfilter a Pa). rewrite filter_cons_True in Hfilter by by apply Hrefl.
      done. }
    apply Forall_cons in HP' as [Pb HP'].
    assert (Hin : forall u v k k', P u ->
              filter (fun y => comparefn u y = 0) (u :: k)
              = filter (fun y => comparefn u y = 0) (v :: k') ->
              u = v \/ u ∈ k').
    { intros u v k k' Pu H. rewrite filter_cons_True in H by by apply Hrefl.
      assert (Hu : u ∈ filter (fun y => comparefn u y = 0) (v :: k')) by (rewrite <- H; left).
      apply list_elem_of_filter in Hu as [_ Hu]. by apply elem_of_cons in Hu. }
    assert (Hab : comparefn a b = 0).
    { pose proof (Hfilter a Pa) as H1. pose proof (Hfilter b Pb) as H2.
      symmetry in H1. apply Hin in H1; [|done]. apply Hin in H2; [|done].
      rewrite Forall_forall in Ha, Hb. unfold in_order in *.
      destruct H1 as [->|H1]; [by apply Hrefl|].
      destruct H2 as [->|H2]; [by apply Hrefl|].
      apply Hb in H1. apply Ha in H2.
      destruct (Z.lt_trichotomy (comparefn a b) 0) as [Hlt|[|]]; [|done|lia].
      apply consistent_on_lt_gt in Hlt; [lia|done|done]. }
    assert (b = a) as ->.
    { specialize (Hfilter a Pa).
      rewrite !filter_cons_True in Hfilter by (done || by apply Hrefl).
      by injection Hfilter. }
    f_equal. apply IH; [done|done|done|].
    intros x Px. specialize (Hfilter x Px). rewrite !filter_cons in Hfilter.
    destruct (decide (comparefn x a = 0)); [by injection Hfilter|done].
Qed.
End ConsistentOn.

(** ** The sort on a consistent comparator *)

Section ArraySortAdequacy.
Context {A : Type}.
Variable comparefn : A -> A -> Z.
Hypothesis comparefn_consistent : consistent comparefn.

Abbreviation tie x := (fun y => comparefn x y = 0).

Lemma consistent_everywhere : consistent_on (fun _ => True) comparefn.
Proof.
  destruct comparefn_consistent as [Hrefl Hsym Heq Hlt Hgt].
  split; [auto|auto|..]; intros a b c _ _ _; [apply Heq|apply Hlt|apply Hgt].
Qed.

Lemma consistent_gt_lt a b : 0 < comparefn a b -> comparefn b a < 0.
Proof. by apply (consistent_on_gt_lt _ _ consistent_everywhere). Qed.

Lemma consistent_lt_gt a b : comparefn a b < 0 -> 0 < comparefn b a.
Proof. by apply (consistent_on_lt_gt _ _ consistent_everywhere). Qed.

Lemma consistent_in_order_trans a b c :
  in_order comparefn a b -> in_order comparefn b c -> in_order comparefn a c.
Proof. by apply (consistent_on_in_order_trans _ _ consistent_everywhere). Qed.

(** The result is sorted: no member compares greater than a later one. *)
Lemma Array_sort_StronglySorted l :
  StronglySorted (in_order comparefn) (Array_sort comparefn l).
Proof.
  apply (Array_sort_StronglySorted_on _ _ consistent_everywhere). by apply Forall_true.
Qed.

(** The sort is stable: members that compare equal keep their order. *)
Lemma Array_sort_stable l x :
  filter (tie x) (Array_sort comparefn l) = filter (tie x) l.
Proof.
  apply (Array_sort_stable_on _ _ consistent_everywhere); [done|]. by apply Forall_true.
Qed.

(** So [Array_sort] returns what every stable sort returns: a sorted list
    in which the members comparing equal are in the order they have in
    [l] is [Array_sort comparefn l]. *)
Lemma Array_sort_unique l l' :
  StronglySorted (in_order comparefn) l' ->
  (forall x, filter (tie x) l' = filter (tie x) l) ->
  l' = Array_sort comparefn l.
Proof.
  intros Hsorted Hstable.
  apply (stable_sorted_unique_on _ _ consistent_everywhere).
  - by apply Forall_true.
  - by apply Forall_true.
  - apply Array_sort_StronglySorted.
  - done.
  - intros x _. by rewrite Array_sort_stable.
Qed.
End ArraySortAdequacy.

(** ** The comparator *)

Section ComparatorFacts.
Variable localeCompare : string -> string -> Z.
Variable context : Context.

Abbreviation compare := (compareProps localeCompare context).
Abbreviation category := (getPropCategory context).

Lemma is_category_spec c d : reflect (c = d) (is_category c d).
Proof.
  unfold is_category. destruct (Z.eqb_spec (PROP_CATEGORIES c) (PROP_CATEGORIES d)) as [E|E];
    constructor.
  - by destruct c, d.
  - by intros ->.
Qed.

Lemma is_category_sym c d : is_category c d = is_category d c.
Proof. unfold is_category. apply Z.eqb_sym. Qed.

(** Every category but [UNKNOWN] is given to attributes with a string
    name only. *)
Lemma category_string_name prop :
  category prop <> UNKNOWN -> exists name, string_name prop = Some name.
Proof.
  unfold getPropCategory. destruct (string_name prop); [eauto|done].
Qed.

(** The two multiline categories are given only where the value is there
    and its text can be had, so counting its lines cannot fail. *)
Lemma category_multiline_value_lines prop :
  category prop = MULTILINE_OBJECT \/ category prop = MULTILINE_FUNCTION ->
  exists lines, value_lines prop = Some lines.
Proof.
  unfold getPropCategory, value_lines.
  destruct (string_name prop); [|by intros [|]].
  destruct (_ && _); [by intros [|]|].
  destruct (attr_value prop) as [value|]; [|by intros [|]].
  destruct (value_text value); [eauto|by intros [|]].
Qed.

Lemma compareProps_UNKNOWN a b :
  category a = UNKNOWN \/ category b = UNKNOWN -> compare a b = 0.
Proof.
  intros H. unfold compareProps.
  destruct (is_category_spec (category a) UNKNOWN) as [Ea|Ea]; [done|].
  destruct (is_category_spec (category b) UNKNOWN) as [Eb|Eb]; [done|].
  by destruct H.
Qed.

Hypothesis localeCompare_antisym : forall s t, localeCompare s t < 0 -> 0 <= localeCompare t s.

End ComparatorFacts.

Section SortingFacts.
Variable localeCompare : string -> string -> Z.
Variable context : Context.

Abbreviation sort_group := (Array_sort (compareProps localeCompare context)).
Abbreviation sorted_rest := (sorted_from localeCompare context).
Abbreviation sort_attributes := (sortAttributesPreservingSpreadPrecedence localeCompare context).

Lemma guarded_sort result group :
  (if (0 <? length group)%nat then result ++ sort_group group else result)
  = result ++ sort_group group.
Proof. destruct group; simpl; [by rewrite app_nil_r|done]. Qed.

Lemma sortAttributes_loop_sorted_from rest result currentGroup :
  (let '(result', group') :=
     sortAttributes_loop localeCompare context rest result currentGroup in
   result' ++ sort_group group')
  = result ++ sorted_rest rest currentGroup.
Proof.
  revert result currentGroup.
  induction rest as [|attr rest IH]; intros result currentGroup; simpl; [done|].
  destruct (is_spread attr).
  - rewrite IH, guarded_sort. by rewrite <- !app_assoc.
  - apply IH.
Qed.

Lemma sortAttributes_sorted_from attributes :
  sort_attributes attributes = sorted_rest attributes [].
Proof.
  unfold sortAttributesPreservingSpreadPrecedence.
  destruct (Nat.leb_spec (length attributes) 1) as [Hle|Hgt].
  - destruct attributes as [|attr [|attr' rest]]; simpl in *; [done| |lia].
    by destruct (is_spread attr).
  - pose proof (sortAttributes_loop_sorted_from attributes [] []) as H.
    destruct (sortAttributes_loop _ _ attributes [] []) as [result group].
    by rewrite guarded_sort.
Qed.

Lemma sorted_from_groups_permuted rest currentGroup :
  Forall non_spread currentGroup ->
  groups_permuted (currentGroup ++ rest) (sorted_rest rest currentGroup).
Proof.
  revert currentGroup.
  induction rest as [|attr rest IH]; intros currentGroup Hgroup; simpl.
  - rewrite app_nil_r. constructor; [done|].
    symmetry. apply Array_sort_Permutation.
  - destruct (is_spread attr) eqn:Hattr.
    + constructor 2; [done| |done|].
      * symmetry. apply Array_sort_Permutation.
      * apply (IH []). constructor.
    + rewrite (cons_middle attr), app_assoc. apply IH.
      apply Forall_app. split; [done|]. by repeat constructor.
Qed.

Lemma groups_permuted_length l l' : groups_permuted l l' -> length l' = length l.
Proof.
  induction 1 as [g g' _ Hperm|g g' s rest rest' _ Hperm _ _ IH].
  - by rewrite Hperm.
  - rewrite !length_app. simpl. by rewrite IH, Hperm.
Qed.

Lemma groups_permuted_spread_lookup l l' i spread :
  groups_permuted l l' ->
  is_spread spread = true ->
  l !! i = Some spread <-> l' !! i = Some spread.
Proof.
  intros H Hspread. revert i.
  induction H as [g g' Hg Hperm|g g' s rest rest' Hg Hperm Hs _ IH]; intros i.
  - assert (Hg' : Forall non_spread g') by by rewrite <- Hperm.
    split; intros Hi.
    + eapply Forall_lookup_1 in Hi; [|exact Hg]. unfold non_spread in Hi. congruence.
    + eapply Forall_lookup_1 in Hi; [|exact Hg']. unfold non_spread in Hi. congruence.
  - assert (Hg' : Forall non_spread g') by by rewrite <- Hperm.
    assert (Hlen : length g' = length g) by by rewrite Hperm.
    destruct (Nat.lt_ge_cases i (length g)) as [Hlt|Hge].
    + rewrite !lookup_app_l by lia.
      split; intros Hi.
      * eapply Forall_lookup_1 in Hi; [|exact Hg]. unfold non_spread in Hi. congruence.
      * eapply Forall_lookup_1 in Hi; [|exact Hg']. unfold non_spread in Hi. congruence.
    + rewrite !lookup_app_r by lia. rewrite Hlen.
      destruct (i - length g)%nat as [|k]; simpl; [done|]. apply IH.
Qed.

Lemma sorted_from_non_spread rest currentGroup :
  Forall non_spread rest ->
  sorted_rest rest currentGroup = sort_group (currentGroup ++ rest).
Proof.
  revert currentGroup.
  induction rest as [|attr rest IH]; intros currentGroup Hrest; simpl.
  - by rewrite app_nil_r.
  - inversion_clear Hrest as [|? ? Hattr Hrest'].
    unfold non_spread in Hattr. rewrite Hattr.
    rewrite IH by done. by rewrite <- app_assoc.
Qed.


Hypothesis localeCompare_antisym : forall s t, localeCompare s t < 0 -> 0 <= localeCompare t s.


End SortingFacts.

(** ** The grouping *)

Section GroupingFacts.

Lemma groupAttributesBySpread_loop_groups_from n i rest groups currentGroup :
  (i + length rest = n)%nat ->
  (rest = [] -> currentGroup = []) ->
  groupAttributesBySpread_loop n i rest groups currentGroup
  = groups ++ groups_from rest currentGroup.
Proof.
  revert i groups currentGroup.
  induction rest as [|attr rest IH]; intros i groups currentGroup Hn Hlast; simpl.
  - rewrite Hlast by done. by rewrite app_nil_r.
  - simpl in Hn.
    assert (Hlen : (0 <? length (currentGroup ++ [attr]))%nat = true).
    { apply Nat.ltb_lt. rewrite length_app. simpl. lia. }
    rewrite Hlen.
    destruct (is_spread attr); simpl.
    + rewrite IH by (done || lia). by rewrite <- app_assoc.
    + destruct (Nat.eqb_spec i (n - 1)) as [Hi|Hi].
      * destruct rest; [|simpl in Hn; lia].
        simpl. by destruct currentGroup.
      * apply IH; [lia|]. intros ->. simpl in Hn. lia.
Qed.

Lemma groupAttributesBySpread_groups_from attributes :
  groupAttributesBySpread attributes = groups_from attributes [].
Proof.
  unfold groupAttributesBySpread.
  by rewrite groupAttributesBySpread_loop_groups_from.
Qed.

Lemma groups_from_concat rest currentGroup :
  concat (groups_from rest currentGroup) = currentGroup ++ rest.
Proof.
  revert currentGroup.
  induction rest as [|attr rest IH]; intros currentGroup; simpl.
  - destruct currentGroup; simpl; by rewrite ?app_nil_r.
  - destruct (is_spread attr); simpl; rewrite IH; by rewrite <- ?app_assoc.
Qed.

Lemma groups_from_closed rest currentGroup :
  Forall non_spread currentGroup ->
  Forall closed_group (groups_from rest currentGroup).
Proof.
  revert currentGroup.
  induction rest as [|attr rest IH]; intros currentGroup Hgroup; simpl.
  - destruct currentGroup as [|first others]; [constructor|].
    repeat constructor.
    destruct (exists_last (l := first :: others)) as (init & closing & Heq); [done|].
    exists init, closing. split; [done|].
    rewrite Heq in Hgroup. by apply Forall_app in Hgroup as [? _].
  - destruct (is_spread attr) eqn:Hattr.
    + constructor; [by exists currentGroup, attr|].
      apply IH. constructor.
    + apply IH. apply Forall_app. split; [done|]. by repeat constructor.
Qed.

Lemma groups_from_closed_by_spread rest currentGroup i group :
  groups_from rest currentGroup !! i = Some group ->
  (S i < length (groups_from rest currentGroup))%nat ->
  exists init spread, group = init ++ [spread] /\ is_spread spread = true.
Proof.
  revert currentGroup i.
  induction rest as [|attr rest IH]; intros currentGroup i; simpl.
  - destruct currentGroup; simpl; intros _ ?; lia.
  - destruct (is_spread attr) eqn:Hattr; [|apply IH].
    destruct i as [|i]; simpl.
    + intros [= <-] _. by exists currentGroup, attr.
    + intros Hi Hlen. apply (IH [] i); [done|lia].
Qed.
End GroupingFacts.

(** ** The handler *)

Section HandlerFacts.
Variable localeCompare : string -> string -> Z.
Variable context : Context.

Abbreviation handler := (JSXOpeningElement localeCompare context).
Abbreviation sorted_attributes := (sortAttributesPreservingSpreadPrecedence localeCompare context).

Lemma groups_permuted_Permutation l l' : groups_permuted l l' -> l' ≡ₚ l.
Proof.
  induction 1 as [g g' _ Hperm|g g' s rest rest' _ Hperm _ _ IH].
  - done.
  - by rewrite IH, Hperm.
Qed.

Lemma sortAttributes_groups_permuted attrs : groups_permuted attrs (sorted_attributes attrs).
Proof.
  rewrite sortAttributes_sorted_from.
  apply (sorted_from_groups_permuted _ _ attrs []). constructor.
Qed.

Lemma sortAttributes_Permutation attrs : sorted_attributes attrs ≡ₚ attrs.
Proof. apply groups_permuted_Permutation, sortAttributes_groups_permuted. Qed.

Lemma areAttributesEquivalent_refl attrs : areAttributesEquivalent attrs attrs = true.
Proof.
  unfold areAttributesEquivalent. rewrite Nat.eqb_refl. simpl.
  induction attrs as [|attr attrs IH]; simpl; [done|].
  unfold same_type, same_node. by rewrite eqb_reflx, Nat.eqb_refl.
Qed.

Lemma areAttributesEquivalent_loc attrsA attrsB :
  areAttributesEquivalent attrsA attrsB = true -> loc <$> attrsA = loc <$> attrsB.
Proof.
  unfold areAttributesEquivalent.
  destruct (Nat.eqb_spec (length attrsA) (length attrsB)) as [Hlen|]; [simpl|done].
  revert attrsB Hlen.
  induction attrsA as [|a attrsA IH]; intros [|b attrsB] Hlen; simpl in *; try done.
  destruct (same_type a b); [simpl|done].
  unfold same_node. destruct (Nat.eqb_spec (loc a) (loc b)) as [->|]; [simpl|done].
  intros H. f_equal. apply IH; [lia|done].
Qed.

Lemma includes_node_spec attrs attr :
  includes_node attrs attr = true <-> loc attr ∈ loc <$> attrs.
Proof.
  unfold includes_node, same_node. rewrite existsb_exists, list_elem_of_fmap.
  split.
  - intros (x & Hx & E). apply Nat.eqb_eq in E. exists x.
    split; [done|]. by apply list_elem_of_In.
  - intros (x & E & Hx). exists x. split; [by apply list_elem_of_In|].
    by apply Nat.eqb_eq.
Qed.

(** What [createFix] has checked, and what it has built, when it returns a
    replacement. *)
Lemma createFix_Some node attrs candidate text :
  createFix node attrs candidate = Some text ->
  length candidate = length attrs
  /\ (forall attr, attr ∈ candidate -> loc attr ∈ loc <$> attrs)
  /\ exists tagName nodeText,
       name_text node = Some tagName /\ node_text node = Some nodeText
       /\ text = "<" +:+ tagName +:+ Str.nl +:+ (Str.leading_space nodeText +:+ "  ")
                 +:+ Str.join (Str.nl +:+ Str.leading_space nodeText +:+ "  ")
                       (attribute_text <$> candidate)
                 +:+ (if selfClosing node then " />" else ">").
Proof.
  unfold createFix.
  destruct (Nat.eqb_spec (length attrs) (length candidate)) as [Hlen|]; [simpl|done].
  destruct (forallb _ candidate) eqn:Hall; [simpl|done].
  destruct (name_text node) as [tagName|]; [|done].
  destruct (node_text node) as [nodeText|]; [|done].
  intros [= <-]. split; [done|]. split; [|by eauto].
  intros attr Hattr.
  rewrite forallb_forall in Hall.
  apply list_elem_of_In, Hall, bool_decide_eq_true in Hattr.
  by apply elem_of_list_to_set in Hattr.
Qed.

Lemma createFix_None node attrs candidate :
  ~ (length candidate = length attrs
     /\ forall attr, attr ∈ candidate -> loc attr ∈ loc <$> attrs) ->
  createFix node attrs candidate = None.
Proof.
  intros Hfail. destruct (createFix node attrs candidate) as [text|] eqn:E; [|done].
  apply createFix_Some in E as (? & ? & _). by destruct Hfail.
Qed.

(** A member of the reports of the handler is a member of those of
    [report_unsorted] for the sorted attributes. *)
Lemma handler_report node r :
  r ∈ handler node ->
  (1 < length (attributes node))%nat
  /\ r ∈ report_unsorted node (sorted_attributes (attributes node)).
Proof.
  unfold JSXOpeningElement.
  destruct (Nat.leb_spec (length (attributes node)) 1); [by intros ?%elem_of_nil|].
  done.
Qed.

(** The three outcomes of [report_unsorted]. *)
Lemma report_unsorted_cases node candidate :
  (areAttributesEquivalent (attributes node) candidate = true
   /\ report_unsorted node candidate = [])
  \/ (areAttributesEquivalent (attributes node) candidate = false
      /\ length candidate = length (attributes node)
      /\ (forall attr, attr ∈ attributes node -> loc attr ∈ loc <$> candidate)
      /\ report_unsorted node candidate
         = [mkReport message_fix (Some (createFix node (attributes node) candidate))])
  \/ (areAttributesEquivalent (attributes node) candidate = false
      /\ ~ (length candidate = length (attributes node)
            /\ forall attr, attr ∈ attributes node -> loc attr ∈ loc <$> candidate)
      /\ report_unsorted node candidate = [mkReport message_nofix None]).
Proof.
  unfold report_unsorted.
  destruct (areAttributesEquivalent _ _); simpl; [by left|right].
  destruct (Nat.eqb_spec (length (attributes node)) (length candidate)) as [Hlen|Hlen]; simpl.
  - destruct (forallb _ _) eqn:Hall.
    + left. repeat split; try done.
      intros attr Hattr. rewrite forallb_forall in Hall.
      by apply includes_node_spec, Hall, list_elem_of_In.
    + right. repeat split; try done.
      intros [_ Hin].
      assert (forallb (includes_node candidate) (attributes node) = true); [|congruence].
      apply forallb_forall. intros attr Hattr.
      by apply includes_node_spec, Hin, list_elem_of_In.
  - right. repeat split; try done. intros [? _]. congruence.
Qed.

(** A replacement in a report is what [createFix] has built from the
    candidate, which has passed both checks. *)
Lemma report_unsorted_replacement node candidate r text :
  r ∈ report_unsorted node candidate ->
  replacement r = Some text ->
  createFix node (attributes node) candidate = Some text
  /\ same_members (attributes node) candidate.
Proof.
  intros Hr Htext.
  destruct (report_unsorted_cases node candidate)
    as [[_ E]|[(_ & Hlen & Hsub & E)|(_ & _ & E)]];
    rewrite E in Hr.
  - by apply elem_of_nil in Hr.
  - apply list_elem_of_singleton in Hr as ->.
    unfold replacement in Htext. simpl in Htext.
    destruct (createFix node (attributes node) candidate) as [text'|] eqn:Hfix; [|done].
    injection Htext as ->. split; [done|].
    apply createFix_Some in Hfix as (_ & Hsup & _). by repeat split.
  - by apply list_elem_of_singleton in Hr as ->.
Qed.

(** With the original nodes all distinct, the two checks together are
    the permutation check. *)
Lemma same_members_Permutation original candidate :
  NoDup (loc <$> original) ->
  same_members original candidate ->
  loc <$> candidate ≡ₚ loc <$> original.
Proof.
  intros Hnodup (Hlen & _ & Hsub). symmetry.
  apply submseteq_length_Permutation.
  - apply NoDup_submseteq; [done|].
    intros x (attr & -> & Hattr)%list_elem_of_fmap. by apply Hsub.
  - rewrite !length_fmap. lia.
Qed.

Lemma Permutation_same_members original candidate :
  loc <$> candidate ≡ₚ loc <$> original -> same_members original candidate.
Proof.
  intros Hperm. split; [|split].
  - apply Permutation_length in Hperm. by rewrite !length_fmap in Hperm.
  - intros attr Hattr. rewrite <- Hperm. by apply list_elem_of_fmap_2.
  - intros attr Hattr. rewrite Hperm. by apply list_elem_of_fmap_2.
Qed.
End HandlerFacts.

(** ** The host's comparison of names *)

Lemma Host_localeCompare_antisym s t :
  0 < Host.localeCompare s t -> Host.localeCompare t s <= 0.
Proof.
  revert t. induction s as [|c s IH]; intros [|d t]; simpl; try lia.
  rewrite (Nat.compare_antisym (Ascii.nat_of_ascii c) (Ascii.nat_of_ascii d)).
  destruct (Ascii.nat_of_ascii c ?= Ascii.nat_of_ascii d)%nat; simpl; [apply IH|lia|lia].
Qed.


(** * The claims *)

(** C1. Every replacement the rule emits for an opening element renders a
    permutation of the element's own attributes: the rendered sequence has
    the length of the original and the same members, by identity. The gate
    that guarantees it holds for any candidate order the handler could be
    given: a replacement is emitted only for a candidate with the length and
    the members of the original (a permutation of it, the original nodes
    being distinct), and for any other candidate the handler makes one
    report that carries no replacement. *)
Theorem replacement_is_permutation localeCompare context node :
  (forall r text,
      r ∈ JSXOpeningElement localeCompare context node ->
      replacement r = Some text ->
      let rendered :=
        sortAttributesPreservingSpreadPrecedence localeCompare context (attributes node) in
      createFix node (attributes node) rendered = Some text
      /\ rendered ≡ₚ attributes node
      /\ same_members (attributes node) rendered)
  /\ (forall candidate,
        (forall r text,
            r ∈ report_unsorted node candidate ->
            replacement r = Some text ->
            createFix node (attributes node) candidate = Some text
            /\ same_members (attributes node) candidate
            /\ (NoDup (loc <$> attributes node) ->
                loc <$> candidate ≡ₚ loc <$> attributes node))
        /\ (~ same_members (attributes node) candidate ->
            exists r, report_unsorted node candidate = [r] /\ replacement r = None)).
Proof.
  split.
  - intros r text [_ Hr]%handler_report Htext rendered.
    destruct (report_unsorted_replacement _ _ _ _ Hr Htext) as [Hfix Hsame].
    split; [done|]. split; [|done]. apply sortAttributes_Permutation.
  - intros candidate. split.
    + intros r text Hr Htext.
      destruct (report_unsorted_replacement _ _ _ _ Hr Htext) as [Hfix Hsame].
      split; [done|]. split; [done|]. intros Hnodup.
      by apply same_members_Permutation.
    + intros Hfail.
      destruct (report_unsorted_cases node candidate)
        as [[Heq E]|[(_ & Hlen & Hsub & E)|(_ & _ & E)]]; rewrite E.
      * destruct Hfail. apply Permutation_same_members.
        by rewrite (areAttributesEquivalent_loc _ _ Heq).
      * eexists. split; [done|]. unfold replacement. simpl.
        rewrite createFix_None; [done|].
        intros [_ Hsup]. by destruct Hfail.
      * by eexists.
Qed.

Lemma replacement_is_permutation_witness :
  let node := Example.box [Example.b1; Example.a] true in
  let r :=
    mkReport message_fix
      (Some (Some ("<Box" +:+ Str.nl +:+ "  a" +:+ Str.nl +:+ "  b='1' />"))) in
  (r ∈ JSXOpeningElement Host.localeCompare Host.no_options node
   /\ [Example.a; Example.b1] ≡ₚ attributes node)
  /\ (~ same_members (attributes node) [Example.a; Example.a]
      /\ exists r', report_unsorted node [Example.a; Example.a] = [r']
                    /\ replacement r' = None).
Proof.
  intros node r.
  destruct (replacement_is_permutation Host.localeCompare Host.no_options node)
    as [Hrule Hgate].
  split.
  - assert (Hr : r ∈ JSXOpeningElement Host.localeCompare Host.no_options node).
    { vm_compute. apply list_elem_of_here. }
    split; [exact Hr|].
    destruct (Hrule r _ Hr eq_refl) as (_ & Hperm & _).
    exact Hperm.
  - assert (Hdropped : ~ same_members (attributes node) [Example.a; Example.a]).
    { intros (_ & _ & Hsub).
      specialize (Hsub Example.b1 (list_elem_of_here _ _)).
      apply elem_of_cons in Hsub as [Hsub|Hsub]; [discriminate Hsub|].
      apply elem_of_cons in Hsub as [Hsub|Hsub]; [discriminate Hsub|].
      by apply elem_of_nil in Hsub. }
    split; [exact Hdropped|].
    destruct (Hgate [Example.a; Example.a]) as [_ Hfail].
    exact (Hfail Hdropped).
Defined.

(** C2. In the output of [sortAttributesPreservingSpreadPrecedence] every
    spread attribute stands at the index it had in the input (so the spread
    attributes keep their order too, and no other index holds one), and the
    output is the input with only the runs of non-spread attributes between
    two spread attributes, or between one and an end of the list,
    permuted. *)
Theorem spreads_stay_in_place localeCompare context attrs :
  let sorted := sortAttributesPreservingSpreadPrecedence localeCompare context attrs in
  length sorted = length attrs
  /\ (forall i spread,
        is_spread spread = true ->
        attrs !! i = Some spread <-> sorted !! i = Some spread)
  /\ groups_permuted attrs sorted.
Proof.
  intros sorted.
  pose proof (sortAttributes_groups_permuted localeCompare context attrs) as H.
  split; [by apply groups_permuted_length|].
  split; [|done].
  intros i spread Hspread. by apply groups_permuted_spread_lookup.
Qed.

Lemma spreads_stay_in_place_witness :
  let attrs := [Example.b1; Example.a; Example.rest; Example.size; Example.asChild] in
  let sorted :=
    sortAttributesPreservingSpreadPrecedence Host.localeCompare Host.no_options attrs in
  is_spread Example.rest = true
  /\ attrs !! 2%nat = Some Example.rest
  /\ sorted !! 2%nat = Some Example.rest.
Proof.
  intros attrs sorted.
  destruct (spreads_stay_in_place Host.localeCompare Host.no_options attrs) as (_ & H & _).
  split; [reflexivity|]. split; [reflexivity|].
  apply (H 2%nat Example.rest); reflexivity.
Defined.

(** C3, as the code has it. [groupAttributesBySpread] cuts the sequence
    into consecutive groups whose concatenation is the sequence itself. A
    spread attribute closes the group it has just been added to: it is the
    last member of that group, never excluded, so that no group is empty
    and no group has a spread attribute before its last member; and every
    group but the last ends with a spread attribute. *)
Theorem groups_end_with_their_spread attrs :
  let groups := groupAttributesBySpread attrs in
  concat groups = attrs
  /\ Forall closed_group groups
  /\ (forall i group,
        groups !! i = Some group ->
        (S i < length groups)%nat ->
        exists init spread, group = init ++ [spread] /\ is_spread spread = true).
Proof.
  intros groups. unfold groups. rewrite groupAttributesBySpread_groups_from.
  split; [apply groups_from_concat|].
  split; [apply groups_from_closed; constructor|].
  apply groups_from_closed_by_spread.
Qed.

Lemma groups_end_with_their_spread_witness :
  let groups := groupAttributesBySpread [Example.b1; Example.rest; Example.a] in
  groups !! 0%nat = Some [Example.b1; Example.rest]
  /\ (1 < length groups)%nat
  /\ exists init spread,
       [Example.b1; Example.rest] = init ++ [spread] /\ is_spread spread = true.
Proof.
  intros groups.
  destruct (groups_end_with_their_spread [Example.b1; Example.rest; Example.a])
    as (_ & _ & H).
  split; [reflexivity|]. split; [vm_compute; lia|].
  apply (H 0%nat); [reflexivity|vm_compute; lia].
Defined.

(** C3, as stated, fails: the group that a spread attribute closes contains
    that spread attribute. *)
Lemma groupAttributesBySpread_keeps_spread :
  groupAttributesBySpread [Example.b1; Example.rest; Example.a]
  = [[Example.b1; Example.rest]; [Example.a]]
  /\ ~ Forall (Forall non_spread)
         (groupAttributesBySpread [Example.b1; Example.rest; Example.a]).
Proof.
  split; [reflexivity|].
  intros H. apply Forall_cons in H as [H _].
  apply Forall_cons in H as [_ H]. apply Forall_cons in H as [H _].
  discriminate H.
Qed.



(** C5, on the code. With no options given, the list [create] falls back
    on contains [className], so the attribute [className] of the README's
    element is classified [REACT_RESERVED] and sorted second, right after
    [key], not fourth among the strings. The host's comparison of names
    plays no part. *)
Theorem readme_order_without_options localeCompare :
  getPropCategory Host.no_options <$> Example.readme_attributes
  = [STRING; REACT_RESERVED; SHORTHAND; STRING; REACT_RESERVED; FUNCTION; VARIABLE;
     MULTILINE_FUNCTION]
  /\ sortAttributesPreservingSpreadPrecedence localeCompare Host.no_options
       Example.readme_attributes
     = [Example.key; Example.className; Example.asChild; Example.size; Example.buttonText;
        Example.user; Example.onClick; Example.onBlur].
Proof. split; reflexivity. Qed.

(** The order that C5 states is the one obtained when the options carry the
    three-name list of [meta.schema] and of the README. *)
Lemma readme_order_with_schema_list localeCompare :
  getPropCategory Example.schema_options
    <$> [Example.key; Example.asChild; Example.size; Example.className; Example.buttonText;
         Example.user; Example.onClick; Example.onBlur]
  = [REACT_RESERVED; SHORTHAND; STRING; STRING; STRING; VARIABLE; FUNCTION; MULTILINE_FUNCTION]
  /\ sortAttributesPreservingSpreadPrecedence localeCompare Example.schema_options
       Example.readme_attributes
     = [Example.key; Example.asChild; Example.size; Example.className; Example.buttonText;
        Example.user; Example.onClick; Example.onBlur].
Proof. split; reflexivity. Qed.

(** C6, as the code has it. Two attributes both classified
    [MULTILINE_OBJECT] whose names have the same length are ordered by the
    number of lines of their values only when the names are the same; when
    the names differ, the host's comparison of the names decides and the
    numbers of lines are not looked at. *)
Theorem multiline_tie_break localeCompare context propA propB nameA nameB :
  getPropCategory context propA = MULTILINE_OBJECT ->
  getPropCategory context propB = MULTILINE_OBJECT ->
  string_name propA = Some nameA ->
  string_name propB = Some nameB ->
  String.length nameA = String.length nameB ->
  (nameA = nameB ->
   exists linesA linesB,
     value_lines propA = Some linesA /\ value_lines propB = Some linesB
     /\ compareProps localeCompare context propA propB = linesA - linesB)
  /\ (nameA <> nameB ->
      compareProps localeCompare context propA propB = localeCompare nameA nameB).
Proof.
  intros HA HB HnameA HnameB Hlen.
  destruct (category_multiline_value_lines context propA) as [linesA HlinesA]; [by left|].
  destruct (category_multiline_value_lines context propB) as [linesB HlinesB]; [by left|].
  unfold compareProps. rewrite HA, HB, HnameA, HnameB, HlinesA, HlinesB, Hlen.
  rewrite Nat.eqb_refl. simpl. split.
  - intros ->. rewrite String.eqb_refl. simpl. by exists linesA, linesB.
  - intros Hne. by destruct (String.eqb_spec nameA nameB).
Qed.

Lemma multiline_tie_break_witness :
  value_lines Example.abc = Some 3 /\ value_lines Example.abc' = Some 2
  /\ compareProps Host.localeCompare Host.no_options Example.abc Example.abc' = 3 - 2.
Proof.
  destruct (multiline_tie_break Host.localeCompare Host.no_options
              Example.abc Example.abc' "abc" "abc")
    as [H _]; try reflexivity.
  destruct (H eq_refl) as (linesA & linesB & HA & HB & Hcompare).
  split; [reflexivity|]. split; [reflexivity|].
  rewrite Hcompare.
  change (value_lines Example.abc) with (Some 3) in HA.
  change (value_lines Example.abc') with (Some 2) in HB.
  by injection HA as <-; injection HB as <-.
Defined.

(** C6, as stated, fails: [abc] and [abd] are both multiline objects and
    their names have the same length; the value of [abc] has three lines
    and that of [abd] two, yet the comparator puts [abc] first. *)
Lemma multiline_objects_ordered_by_name :
  getPropCategory Host.no_options Example.abc = MULTILINE_OBJECT
  /\ getPropCategory Host.no_options Example.abd = MULTILINE_OBJECT
  /\ String.length "abc" = String.length "abd"
  /\ value_lines Example.abc = Some 3
  /\ value_lines Example.abd = Some 2
  /\ compareProps Host.localeCompare Host.no_options Example.abc Example.abd < 0
  /\ Array_sort (compareProps Host.localeCompare Host.no_options) [Example.abc; Example.abd]
     = [Example.abc; Example.abd].
Proof. repeat split. Qed.

(** C7, on the code. [compareProps] answers [0] whenever one of the two
    attributes is classified [UNKNOWN], in order to "preserve original
    order" as its comment says, but the sort does not preserve it. In
    [<Box zeta='1' b xlink:href='#a' a />] the attribute [xlink:href] is
    classified [UNKNOWN] and compares equal with each of the other three,
    in either order; yet [a], which stands behind it, is sorted in front of
    it, and the handler reports the element with that order as the fix. *)
Theorem unknown_attribute_is_overtaken :
  let compare := compareProps Host.localeCompare Host.no_options in
  getPropCategory Host.no_options Example.xlink_href = UNKNOWN
  /\ Forall (fun prop => compare prop Example.xlink_href = 0
                         /\ compare Example.xlink_href prop = 0)
       [Example.zeta; Example.b; Example.a]
  /\ sortAttributesPreservingSpreadPrecedence Host.localeCompare Host.no_options
       [Example.zeta; Example.b; Example.xlink_href; Example.a]
     = [Example.a; Example.b; Example.zeta; Example.xlink_href]
  /\ JSXOpeningElement Host.localeCompare Host.no_options Example.unknown_third
     = [mkReport message_fix
          (Some (Some ("<Box" +:+ Str.nl +:+ "  a" +:+ Str.nl +:+ "  b" +:+ Str.nl
                       +:+ "  zeta='1'" +:+ Str.nl +:+ "  xlink:href='#a' />")))].
Proof.
  intros compare. split; [reflexivity|]. split; [|split; reflexivity].
  repeat (apply Forall_cons; split; [split; reflexivity|]). apply Forall_nil_2.
Qed.

(** C8, on the code. To "extract indentation" [createFix] looks for white
    space at the start of [getText(node)], which is the text of the element
    from its ["<"] on, and finds none, wherever the element stands. The
    element [<Box b='1' a />] that stands behind four spaces on its line
    is reported with a replacement in which every attribute stands behind
    two spaces, not behind the four spaces of the element and two more. *)
Theorem indentation_is_not_extracted :
  let node := Example.indented_box in
  Str.leading_space Example.indented_line = "    "
  /\ name_text node = Some "Box"
  /\ node_text node = Some "<Box b='1' a />"
  /\ JSXOpeningElement Host.localeCompare Host.no_options node
     = [mkReport message_fix
          (Some (Some (tag_text "Box" "  " [Example.a; Example.b1] " />")))]
  /\ tag_text "Box" "  " [Example.a; Example.b1] " />"
     = "<Box" +:+ Str.nl +:+ "  a" +:+ Str.nl +:+ "  b='1' />"
  /\ tag_text "Box" (Str.leading_space Example.indented_line +:+ "  ")
       [Example.a; Example.b1] " />"
     = "<Box" +:+ Str.nl +:+ "      a" +:+ Str.nl +:+ "      b='1' />".
Proof. repeat split. Qed.

Lemma reserved_iff context prop name :
  string_name prop = Some name ->
  getPropCategory context prop = REACT_RESERVED
  <-> shouldPrioritizeReactProps context = true
      /\ Str.includes (reactPropsList context) name = true.
Proof.
  intros Hname. unfold getPropCategory. rewrite Hname.
  destruct (shouldPrioritizeReactProps context), (Str.includes _ name); simpl;
    try (split; [done|by intros []]).
  all: split; [|by intros []].
  all: destruct (attr_value prop) as [[[] []]|]; simpl; try done.
  all: repeat (match goal with
               | |- context [if ?c then _ else _] => destruct c
               | |- context [match ?e with _ => _ end] => destruct e
               end; try done).
Qed.

Lemma includes_spec names name : Str.includes names name = true <-> name ∈ names.
Proof.
  unfold Str.includes. rewrite existsb_exists. split.
  - intros (x & Hx & ->%String.eqb_eq). by apply list_elem_of_In.
  - intros H. exists name. split; [by apply list_elem_of_In|apply String.eqb_refl].
Qed.

Lemma indexOf_from_includes names name i :
  Str.includes names name = true -> Str.indexOf_from i name names <> -1 \/ i < 0.
Proof.
  revert i. induction names as [|first names IH]; intros i; simpl; [done|].
  destruct (String.eqb name first); simpl; [lia|].
  intros H. destruct (IH (i + 1) H); lia.
Qed.

(** C9. When the options hold no [reactPropsList], the list is the twelve
    names, in this order; when they hold no [reactPropsFirst], React props
    are put first. With both left out, as when no options are given at all,
    an attribute is [REACT_RESERVED] exactly when its name is one of the
    twelve, and two such attributes are compared by the places of their
    names in the list. *)
Theorem defaults_of_create localeCompare context :
  (opt_reactPropsList (options context) = None -> reactPropsList context = twelve_names)
  /\ (opt_reactPropsFirst (options context) = None ->
      shouldPrioritizeReactProps context = true)
  /\ (opt_reactPropsList (options context) = None ->
      opt_reactPropsFirst (options context) = None ->
      forall propA propB nameA nameB,
        string_name propA = Some nameA ->
        string_name propB = Some nameB ->
        (getPropCategory context propA = REACT_RESERVED <-> nameA ∈ twelve_names)
        /\ (nameA ∈ twelve_names -> nameB ∈ twelve_names ->
            compareProps localeCompare context propA propB
            = Str.indexOf twelve_names nameA - Str.indexOf twelve_names nameB)).
Proof.
  assert (Hlist : opt_reactPropsList (options context) = None ->
                  reactPropsList context = twelve_names).
  { unfold reactPropsList. by intros ->. }
  assert (Hfirst : opt_reactPropsFirst (options context) = None ->
                   shouldPrioritizeReactProps context = true).
  { unfold shouldPrioritizeReactProps. by intros ->. }
  split; [done|]. split; [done|].
  intros HnoList HnoFirst propA propB nameA nameB HnameA HnameB.
  specialize (Hlist HnoList). specialize (Hfirst HnoFirst).
  assert (Hreserved : forall prop name,
    string_name prop = Some name ->
    getPropCategory context prop = REACT_RESERVED <-> name ∈ twelve_names).
  { intros prop name Hname. rewrite (reserved_iff _ _ _ Hname), Hlist, includes_spec.
    split; [by intros []|done]. }
  split; [by apply Hreserved|].
  intros HA HB.
  pose proof (proj2 (Hreserved _ _ HnameA) HA) as HcatA.
  pose proof (proj2 (Hreserved _ _ HnameB) HB) as HcatB.
  unfold compareProps. rewrite HcatA, HcatB, HnameA, HnameB, Hlist. simpl.
  apply includes_spec in HA, HB.
  destruct (indexOf_from_includes _ _ 0 HA) as [HiA|]; [|lia].
  destruct (indexOf_from_includes _ _ 0 HB) as [HiB|]; [|lia].
  fold (Str.indexOf twelve_names nameA) in *. fold (Str.indexOf twelve_names nameB) in *.
  destruct (Z.eqb_spec (Str.indexOf twelve_names nameA) (-1)); [done|].
  by destruct (Z.eqb_spec (Str.indexOf twelve_names nameB) (-1)).
Qed.

Lemma defaults_of_create_witness :
  reactPropsList Host.no_options = twelve_names
  /\ shouldPrioritizeReactProps Host.no_options = true
  /\ compareProps Host.localeCompare Host.no_options Example.className Example.key = 8 - 0.
Proof.
  destruct (defaults_of_create Host.localeCompare Host.no_options) as (H1 & H2 & H3).
  split; [by apply H1|]. split; [by apply H2|].
  destruct (H3 eq_refl eq_refl Example.className Example.key "className" "key" eq_refl eq_refl)
    as [_ H].
  rewrite H; [reflexivity| |]; apply includes_spec; reflexivity.
Defined.

(** C10. An empty [reactPropsList] in the options is used as it is, not
    replaced by the twelve names: no attribute is then classified
    [REACT_RESERVED], whatever [reactPropsFirst] says. *)
Theorem empty_list_is_kept context :
  opt_reactPropsList (options context) = Some [] ->
  reactPropsList context = []
  /\ forall prop, getPropCategory context prop <> REACT_RESERVED.
Proof.
  intros Hempty.
  assert (Hlist : reactPropsList context = []).
  { unfold reactPropsList. by rewrite Hempty. }
  split; [done|].
  intros prop Hprop.
  destruct (category_string_name context prop) as [name Hname]; [by rewrite Hprop|].
  destruct (proj1 (reserved_iff _ _ _ Hname) Hprop) as [_ Hin].
  rewrite Hlist in Hin. discriminate Hin.
Qed.

Lemma empty_list_is_kept_witness :
  let context := mkContext [mkOptions (Some true) (Some [])] in
  opt_reactPropsList (options context) = Some []
  /\ shouldPrioritizeReactProps context = true
  /\ getPropCategory context Example.key <> REACT_RESERVED.
Proof.
  intros context. split; [reflexivity|]. split; [reflexivity|].
  destruct (empty_list_is_kept context eq_refl) as [_ H]. apply H.
Defined.

(** * Further properties of the rule *)

(** ** The handler and [createFix] *)

Lemma forallb_false {A : Type} (f : A -> bool) l :
  forallb f l = false -> exists x, x ∈ l /\ f x = false.
Proof.
  induction l as [|x l IH]; simpl; [done|].
  destruct (f x) eqn:E; simpl.
  - intros (y & Hy & Hfy)%IH. exists y. split; [by right|done].
  - intros _. exists x. split; [by left|done].
Qed.

Lemma original_set_spec attrs attr :
  bool_decide (loc attr ∈ (list_to_set (loc <$> attrs) : gset nat)) = true
  <-> loc attr ∈ loc <$> attrs.
Proof. rewrite bool_decide_eq_true. apply elem_of_list_to_set. Qed.

(** On a permutation of the original attributes both checks of [createFix]
    pass: only a text that cannot be had makes it return [null]. *)
Lemma createFix_Permutation node attrs candidate :
  candidate ≡ₚ attrs ->
  createFix node attrs candidate = None
  <-> name_text node = None \/ node_text node = None.
Proof.
  intros Hperm. unfold createFix.
  rewrite (Permutation_length Hperm), Nat.eqb_refl. simpl.
  assert (Hall : forallb
            (fun attr => bool_decide (loc attr ∈ (list_to_set (loc <$> attrs) : gset nat)))
            candidate = true).
  { apply forallb_forall. intros attr Hattr%list_elem_of_In.
    apply original_set_spec, list_elem_of_fmap_2. by rewrite <- Hperm. }
  rewrite Hall. simpl.
  destruct (name_text node), (node_text node); split; try done; try tauto.
  by intros [|].
Qed.

(** The outcome of the handler: silence, or one report with the fixer of
    [createFix] for the sorted attributes. *)
Lemma rule_outcome localeCompare context node :
  JSXOpeningElement localeCompare context node = []
  \/ JSXOpeningElement localeCompare context node
     = [mkReport message_fix
          (Some (createFix node (attributes node)
                   (sortAttributesPreservingSpreadPrecedence localeCompare context
                      (attributes node))))].
Proof.
  unfold JSXOpeningElement.
  destruct (length (attributes node) <=? 1)%nat; [by left|].
  pose proof (sortAttributes_Permutation localeCompare context (attributes node)) as Hperm.
  destruct (report_unsorted_cases node
              (sortAttributesPreservingSpreadPrecedence localeCompare context
                 (attributes node)))
    as [[_ E]|[(_ & _ & _ & E)|(_ & Hfail & _)]]; [by left|by right|].
  destruct Hfail. split; [by rewrite Hperm|].
  intros attr Hattr. apply list_elem_of_fmap_2. by rewrite Hperm.
Qed.

(** Nodes of one list with distinct identities are told apart by [loc]. *)
Lemma loc_inj_on (attrs : list Attr) a b :
  NoDup (loc <$> attrs) -> a ∈ attrs -> b ∈ attrs -> loc a = loc b -> a = b.
Proof.
  induction attrs as [|x attrs IH]; simpl; [by intros _ ?%elem_of_nil|].
  intros [Hx Hnodup]%NoDup_cons Ha Hb Hloc.
  apply elem_of_cons in Ha as [->|Ha]; apply elem_of_cons in Hb as [->|Hb].
  - done.
  - destruct Hx. rewrite Hloc. by apply list_elem_of_fmap_2.
  - destruct Hx. rewrite <- Hloc. by apply list_elem_of_fmap_2.
  - by apply IH.
Qed.

Lemma same_loc_same_list (attrs k k' : list Attr) :
  NoDup (loc <$> attrs) ->
  (forall x, x ∈ k -> x ∈ attrs) ->
  (forall x, x ∈ k' -> x ∈ attrs) ->
  loc <$> k = loc <$> k' ->
  k = k'.
Proof.
  intros Hnodup. revert k'.
  induction k as [|a k IH]; intros [|b k'] Hk Hk' Hloc; simpl in *; try done.
  injection Hloc as Hab Hloc.
  f_equal.
  - apply (loc_inj_on attrs); [done|apply Hk; by left|apply Hk'; by left|done].
  - apply IH; [|intros x Hx; apply Hk'; by right|done].
    intros x Hx. apply Hk. by right.
Qed.
(** X1. The handler makes at most one report for an element, and the
    report it makes always has the message of a fixable finding and a fixer:
    the report without fix, for attributes that might be lost, is never
    made, because the sorted attributes are always a permutation of the
    original ones. *)
Theorem fix_is_always_offered localeCompare context node r :
  r ∈ JSXOpeningElement localeCompare context node ->
  JSXOpeningElement localeCompare context node = [r]
  /\ report_message r = message_fix
  /\ report_fix r
     = Some (createFix node (attributes node)
               (sortAttributesPreservingSpreadPrecedence localeCompare context
                  (attributes node))).
Proof.
  intros Hr. destruct (rule_outcome localeCompare context node) as [E|E]; rewrite E in *.
  - by apply elem_of_nil in Hr.
  - by apply list_elem_of_singleton in Hr as ->.
Qed.

Lemma fix_is_always_offered_witness :
  let node := Example.box [Example.b1; Example.rest; Example.size; Example.asChild] false in
  exists r, JSXOpeningElement Host.localeCompare Host.no_options node = [r]
            /\ report_message r = message_fix.
Proof.
  intros node.
  set (r := mkReport message_fix
              (Some (createFix node (attributes node)
                       [Example.b1; Example.rest; Example.asChild; Example.size]))).
  assert (Hr : r ∈ JSXOpeningElement Host.localeCompare Host.no_options node).
  { vm_compute. apply list_elem_of_here. }
  destruct (fix_is_always_offered Host.localeCompare Host.no_options node r Hr)
    as (Hone & Hmessage & _).
  by exists r.
Defined.

(** X2. For an element whose attribute nodes are distinct, the handler is
    silent exactly when sorting leaves the attribute list as it is; an
    element with fewer than two attributes is such an element. *)
Theorem silent_iff_sorted localeCompare context node :
  NoDup (loc <$> attributes node) ->
  JSXOpeningElement localeCompare context node = []
  <-> sortAttributesPreservingSpreadPrecedence localeCompare context (attributes node)
      = attributes node.
Proof.
  intros Hnodup.
  pose proof (sortAttributes_Permutation localeCompare context (attributes node)) as Hperm.
  unfold JSXOpeningElement. split.
  - destruct (Nat.leb_spec (length (attributes node)) 1) as [Hle|Hgt].
    + intros _. unfold sortAttributesPreservingSpreadPrecedence.
      by destruct (Nat.leb_spec (length (attributes node)) 1); [|lia].
    + intros Hsilent.
      destruct (report_unsorted_cases node
                  (sortAttributesPreservingSpreadPrecedence localeCompare context
                     (attributes node)))
        as [[Heq _]|[(_ & _ & _ & E)|(_ & _ & E)]]; [|congruence|congruence].
      apply areAttributesEquivalent_loc in Heq. symmetry.
      apply (same_loc_same_list (attributes node)); [done|done| |done].
      intros x Hx. by rewrite <- Hperm.
  - intros ->. destruct (length (attributes node) <=? 1)%nat; [done|].
    unfold report_unsorted. by rewrite areAttributesEquivalent_refl.
Qed.

Lemma silent_iff_sorted_witness :
  let node := Example.box [Example.a; Example.b1; Example.rest; Example.asChild] true in
  NoDup (loc <$> attributes node)
  /\ JSXOpeningElement Host.localeCompare Host.no_options node = []
  /\ sortAttributesPreservingSpreadPrecedence Host.localeCompare Host.no_options
       (attributes node) = attributes node.
Proof.
  intros node.
  assert (Hnodup : NoDup (loc <$> attributes node)).
  { apply (bool_decide_unpack _). by vm_compute. }
  split; [exact Hnodup|]. split; [reflexivity|].
  apply (silent_iff_sorted Host.localeCompare Host.no_options node Hnodup). reflexivity.
Defined.

(** X3. On a report of the handler the fixer returns [null] exactly when
    the text of the tag name or of the element cannot be had: the two safety
    checks of [createFix] never fail on the attributes the handler has
    sorted. *)
Theorem no_replacement_only_without_text localeCompare context node r :
  r ∈ JSXOpeningElement localeCompare context node ->
  replacement r = None <-> name_text node = None \/ node_text node = None.
Proof.
  intros Hr. destruct (rule_outcome localeCompare context node) as [E|E]; rewrite E in Hr.
  { by apply elem_of_nil in Hr. }
  apply list_elem_of_singleton in Hr as ->.
  rewrite <- (createFix_Permutation node (attributes node)
                (sortAttributesPreservingSpreadPrecedence localeCompare context
                   (attributes node)))
    by apply sortAttributes_Permutation.
  unfold replacement. simpl. by destruct (createFix _ _ _).
Qed.

Lemma no_replacement_only_without_text_witness :
  let node := mkOpeningElement None (Some "<Box b='1' a />") [Example.b1; Example.a] true in
  mkReport message_fix (Some None) ∈ JSXOpeningElement Host.localeCompare Host.no_options node
  /\ name_text node = None.
Proof.
  intros node.
  assert (Hr : mkReport message_fix (Some None)
               ∈ JSXOpeningElement Host.localeCompare Host.no_options node).
  { vm_compute. apply list_elem_of_here. }
  split; [exact Hr|].
  destruct (proj1 (no_replacement_only_without_text Host.localeCompare Host.no_options
                     node _ Hr) eq_refl) as [H|H]; [exact H|discriminate H].
Defined.

(** X4. [createFix] returns [null] exactly in these cases: the candidate
    has not the length of the original, or one of its members is not one of
    the original nodes, or the text of the tag name or of the element cannot
    be had. A text of an attribute that cannot be had does not make it
    return [null]. *)
Theorem createFix_null_cases node attrs candidate :
  createFix node attrs candidate = None
  <-> length candidate <> length attrs
      \/ (exists attr, attr ∈ candidate /\ loc attr ∉ loc <$> attrs)
      \/ name_text node = None
      \/ node_text node = None.
Proof.
  split.
  - unfold createFix.
    destruct (Nat.eqb_spec (length attrs) (length candidate)) as [Hlen|Hlen]; simpl;
      [|intros _; left; congruence].
    destruct (forallb _ candidate) eqn:Hall; simpl.
    + destruct (name_text node); [|by auto].
      destruct (node_text node); [done|by auto].
    + intros _. right. left.
      apply forallb_false in Hall as (attr & Hattr & Hnot).
      exists attr. split; [done|].
      intros Hin%original_set_spec. congruence.
  - intros Hcase. destruct (createFix node attrs candidate) as [text|] eqn:E; [|done].
    apply createFix_Some in E as (Hlen & Hsub & tagName & nodeText & Htag & Hnode & _).
    destruct Hcase as [?|[(attr & Hattr & Hnot)|[?|?]]]; try congruence.
    destruct Hnot. by apply Hsub.
Qed.

Lemma createFix_null_cases_witness :
  let node := Example.box [Example.b1; Example.a] true in
  (exists attr, attr ∈ [Example.a; Example.size] /\ loc attr ∉ loc <$> attributes node)
  /\ createFix node (attributes node) [Example.a; Example.size] = None.
Proof.
  intros node.
  assert (H : exists attr, attr ∈ [Example.a; Example.size]
                           /\ loc attr ∉ loc <$> attributes node).
  { exists Example.size. split; [by right; left|].
    intros Hin.
    apply elem_of_cons in Hin as [Hin|Hin]; [discriminate Hin|].
    apply elem_of_cons in Hin as [Hin|Hin]; [discriminate Hin|].
    by apply elem_of_nil in Hin. }
  split; [exact H|].
  apply (createFix_null_cases node (attributes node) [Example.a; Example.size]).
  right. left. exact H.
Defined.

(** X5. The text of an opening element starts with ["<"], not with white
    space; for every element whose text starts with a character that is not
    white space, the indentation [createFix] extracts is empty, and each
    attribute of the replacement is indented by exactly two spaces, wherever
    the element stands in its file. *)
Theorem attributes_indented_by_two_spaces localeCompare context node r text first rest :
  node_text node = Some (String first rest) ->
  Str.is_space first = false ->
  r ∈ JSXOpeningElement localeCompare context node ->
  replacement r = Some text ->
  exists tagName,
    name_text node = Some tagName
    /\ text = "<" +:+ tagName +:+ Str.nl +:+ "  "
              +:+ Str.join (Str.nl +:+ "  ")
                    (attribute_text
                       <$> sortAttributesPreservingSpreadPrecedence localeCompare context
                             (attributes node))
              +:+ (if selfClosing node then " />" else ">").
Proof.
  intros Hnode Hfirst Hr Htext.
  destruct (handler_report _ _ _ _ Hr) as [_ Hr'].
  destruct (report_unsorted_replacement _ _ _ _ Hr' Htext) as [Hfix _].
  apply createFix_Some in Hfix as (_ & _ & tagName & nodeText & Htag & Hnode' & ->).
  exists tagName. split; [done|].
  rewrite Hnode in Hnode'. injection Hnode' as <-.
  simpl Str.leading_space. by rewrite Hfirst.
Qed.

Lemma attributes_indented_by_two_spaces_witness :
  let node :=
    mkOpeningElement (Some "Box") (Some "<Box b='1' a />") [Example.b1; Example.a] true in
  let text := "<Box" +:+ Str.nl +:+ "  a" +:+ Str.nl +:+ "  b='1' />" in
  mkReport message_fix (Some (Some text)) ∈ JSXOpeningElement Host.localeCompare Host.no_options node
  /\ text = "<" +:+ "Box" +:+ Str.nl +:+ "  "
            +:+ Str.join (Str.nl +:+ "  ") ["a"; "b='1'"] +:+ " />".
Proof.
  intros node text.
  assert (Hr : mkReport message_fix (Some (Some text))
               ∈ JSXOpeningElement Host.localeCompare Host.no_options node).
  { vm_compute. apply list_elem_of_here. }
  split; [exact Hr|].
  destruct (attributes_indented_by_two_spaces Host.localeCompare Host.no_options node _ text
              _ _ eq_refl eq_refl Hr eq_refl)
    as (tagName & Htag & Htext).
  injection Htag as <-. exact Htext.
Defined.

(** ** The classifier *)

Ltac category_cases :=
  unfold getPropCategory;
  repeat match goal with
         | |- context [match ?e with _ => _ end] => destruct e eqn:?
         end.

(** X6. An attribute is [REACT_RESERVED] exactly when its name is a string,
    React props are to be put first and the name is in the list, whatever
    its value is: missing, a text that cannot be had, or several lines. *)
Theorem reserved_exactly_listed_names context prop :
  getPropCategory context prop = REACT_RESERVED
  <-> exists name,
        string_name prop = Some name
        /\ shouldPrioritizeReactProps context = true
        /\ name ∈ reactPropsList context.
Proof.
  split.
  - intros Hprop.
    destruct (category_string_name context prop) as [name Hname]; [by rewrite Hprop|].
    exists name. split; [done|].
    rewrite <- includes_spec. by apply (reserved_iff _ _ _ Hname).
  - intros (name & Hname & Hfirst & Hin).
    apply (reserved_iff _ _ _ Hname). by rewrite includes_spec.
Qed.

(** X7. With [reactPropsFirst] set to [false] no attribute is
    [REACT_RESERVED], whatever the list holds: an attribute named in the
    list is classified by its value like any other. *)
Theorem reactPropsFirst_false_disables_reserved context :
  opt_reactPropsFirst (options context) = Some false ->
  forall prop, getPropCategory context prop <> REACT_RESERVED.
Proof.
  intros Hfalse prop Hprop.
  destruct (category_string_name context prop) as [name Hname]; [by rewrite Hprop|].
  destruct (proj1 (reserved_iff _ _ _ Hname) Hprop) as [Hfirst _].
  unfold shouldPrioritizeReactProps in Hfirst. by rewrite Hfalse in Hfirst.
Qed.

Lemma reactPropsFirst_false_disables_reserved_witness :
  let context := mkContext [mkOptions (Some false) None] in
  Str.includes (reactPropsList context) "key" = true
  /\ getPropCategory context Example.key <> REACT_RESERVED
  /\ getPropCategory context Example.key = STRING.
Proof.
  intros context. split; [reflexivity|]. split; [|reflexivity].
  apply (reactPropsFirst_false_disables_reserved context eq_refl).
Defined.

(** X8. An attribute is [UNKNOWN] exactly when its name is not a string (a
    spread attribute, a namespaced name) or when it is not reserved and has
    a value whose text cannot be had. *)
Theorem unknown_cases context prop :
  getPropCategory context prop = UNKNOWN
  <-> string_name prop = None
      \/ (getPropCategory context prop <> REACT_RESERVED
          /\ exists value, attr_value prop = Some value /\ value_text value = None).
Proof.
  category_cases; split; try done; try (by left); try tauto.
  all: try (intros [?|[? (value & ? & ?)]]; congruence).
  all: try (intros _; right; split; [done|]; by eexists).
Qed.

(** X9. An attribute is [SHORTHAND] exactly when its name is a string, it
    is not reserved and it has no value. *)
Theorem shorthand_cases context prop :
  getPropCategory context prop = SHORTHAND
  <-> (exists name, string_name prop = Some name)
      /\ getPropCategory context prop <> REACT_RESERVED
      /\ attr_value prop = None.
Proof.
  unfold getPropCategory.
  destruct (string_name prop) as [name|]; [|split; [done|by intros ([? ?] & _)]].
  destruct (_ && _); [split; [done|by intros (_ & ? & _)]|].
  destruct (attr_value prop) as [value|]; [|split; [by eauto|done]].
  split; [|by intros (_ & _ & ?)].
  repeat match goal with
         | |- context [match ?e with _ => _ end] => destruct e
         end; done.
Qed.

(** X10. Whether the text of the value holds a line feed is looked at
    before the shape of the value: an attribute that is not reserved and
    whose value text spans several lines is [MULTILINE_OBJECT] or
    [MULTILINE_FUNCTION], also when the value is a literal, and one whose
    value text is a single line is [STRING], [VARIABLE] or [FUNCTION]. *)
Theorem multiline_is_decided_first context prop name value text :
  string_name prop = Some name ->
  attr_value prop = Some value ->
  value_text value = Some text ->
  getPropCategory context prop <> REACT_RESERVED ->
  let category := getPropCategory context prop in
  if Str.includes_char Str.LF text
  then category = MULTILINE_OBJECT \/ category = MULTILINE_FUNCTION
  else category = STRING \/ category = VARIABLE \/ category = FUNCTION.
Proof.
  intros Hname Hvalue Htext. unfold getPropCategory.
  rewrite Hname, Hvalue, Htext.
  destruct (_ && _); [done|]. intros _.
  destruct (Str.includes_char Str.LF text); simpl;
    repeat match goal with
           | |- context [match ?e with _ => _ end] => destruct e
           end; tauto.
Qed.

Lemma multiline_is_decided_first_witness :
  let prop :=
    Example.attribute 40 "title" (Example.literal ("'a" +:+ Str.nl +:+ "b'")) "title" in
  getPropCategory Host.no_options prop = MULTILINE_OBJECT
  \/ getPropCategory Host.no_options prop = MULTILINE_FUNCTION.
Proof.
  intros prop.
  exact (multiline_is_decided_first Host.no_options prop "title"
           (mkValue Literal (Some ("'a" +:+ Str.nl +:+ "b'"))) _
           eq_refl eq_refl eq_refl ltac:(discriminate)).
Defined.

(** X11. The category depends on the name of an attribute that is not
    reserved only through the pattern for function names: two such
    attributes with the same value whose names agree on that pattern have
    the same category. The pattern for object names, when applied to the
    name of the attribute, changes nothing. *)
Theorem object_name_pattern_is_idle context propA propB nameA nameB :
  string_name propA = Some nameA ->
  string_name propB = Some nameB ->
  attr_value propA = attr_value propB ->
  getPropCategory context propA <> REACT_RESERVED ->
  getPropCategory context propB <> REACT_RESERVED ->
  PATTERNS.FUNCTION nameA = PATTERNS.FUNCTION nameB ->
  getPropCategory context propA = getPropCategory context propB.
Proof.
  intros HnameA HnameB Hvalue. unfold getPropCategory.
  rewrite HnameA, HnameB, Hvalue.
  destruct (_ && _); [done|]. destruct (_ && _); [done|].
  intros _ _ ->.
  destruct (attr_value propB) as [value|]; [|done].
  destruct (value_text value) as [text|]; [|done].
  destruct (Str.includes_char Str.LF text), (value_type value) as [|[[]|]|];
    simpl; try done.
  all: repeat match goal with
              | |- context [if ?c then _ else _] => destruct c
              end; done.
Qed.

Lemma object_name_pattern_is_idle_witness :
  let value := Example.container (Identifier "settings") "{settings}" in
  let propA := Example.attribute 41 "userData" value "userData={settings}" in
  let propB := Example.attribute 42 "user" value "user={settings}" in
  PATTERNS.OBJECT "userData" = true
  /\ PATTERNS.OBJECT "user" = false
  /\ getPropCategory Host.no_options propA = getPropCategory Host.no_options propB.
Proof.
  intros value propA propB. split; [reflexivity|]. split; [reflexivity|].
  apply (object_name_pattern_is_idle Host.no_options propA propB "userData" "user");
    try reflexivity; discriminate.
Defined.

(** ** The comparator *)

Lemma compareProps_self localeCompare context prop :
  compareProps localeCompare context prop prop = 0.
Proof.
  unfold compareProps.
  destruct (is_category_spec (getPropCategory context prop) UNKNOWN); simpl; [done|].
  destruct (is_category_spec (getPropCategory context prop) (getPropCategory context prop));
    simpl; [|done].
  destruct (string_name prop) as [name|]; [|done].
  rewrite Nat.eqb_refl, String.eqb_refl. simpl.
  destruct (is_category _ REACT_RESERVED); simpl.
  + destruct (Z.eqb_spec (Str.indexOf (reactPropsList context) name) (-1)); simpl.
    * destruct (_ || _); [|done]. destruct (value_lines prop); lia.
    * lia.
  + destruct (_ || _); [|done]. destruct (value_lines prop); lia.
Qed.

Lemma compareProps_swap_sign localeCompare context propA propB :
  (forall s t, 0 < localeCompare s t <-> localeCompare t s < 0) ->
  0 < compareProps localeCompare context propA propB
  <-> compareProps localeCompare context propB propA < 0.
Proof.
  intros Hswap. unfold compareProps.
  rewrite (is_category_sym (getPropCategory context propB) (getPropCategory context propA)).
  destruct (is_category_spec (getPropCategory context propA) UNKNOWN) as [Ea|Ea];
    rewrite ?orb_true_r; simpl; [lia|].
  destruct (is_category_spec (getPropCategory context propB) UNKNOWN) as [Eb|Eb];
    simpl; [lia|].
  destruct (is_category_spec (getPropCategory context propA) (getPropCategory context propB))
    as [E|E]; simpl; [|lia].
  rewrite <- E.
  destruct (string_name propA) as [nameA|], (string_name propB) as [nameB|]; try lia.
  rewrite (String.eqb_sym nameB nameA), (Nat.eqb_sym (String.length nameB)).
  generalize (Str.indexOf (reactPropsList context) nameA).
  generalize (Str.indexOf (reactPropsList context) nameB).
  intros iB iA.
  assert (Htail :
    0 < (if negb (String.length nameA =? String.length nameB)%nat
         then Z.of_nat (String.length nameA) - Z.of_nat (String.length nameB)
         else if negb (String.eqb nameA nameB) then localeCompare nameA nameB
         else if is_category (getPropCategory context propA) MULTILINE_OBJECT
                 || is_category (getPropCategory context propA) MULTILINE_FUNCTION
         then match value_lines propA, value_lines propB with
              | Some linesA, Some linesB => linesA - linesB
              | _, _ => 0
              end
         else 0) <->
    (if negb (String.length nameA =? String.length nameB)%nat
     then Z.of_nat (String.length nameB) - Z.of_nat (String.length nameA)
     else if negb (String.eqb nameA nameB) then localeCompare nameB nameA
     else if is_category (getPropCategory context propA) MULTILINE_OBJECT
             || is_category (getPropCategory context propA) MULTILINE_FUNCTION
     then match value_lines propB, value_lines propA with
          | Some linesA, Some linesB => linesA - linesB
          | _, _ => 0
          end
     else 0) < 0).
  { destruct (Nat.eqb_spec (String.length nameA) (String.length nameB)); simpl; [|lia].
    destruct (String.eqb_spec nameA nameB); simpl; [|by apply Hswap].
    destruct (is_category (getPropCategory context propA) MULTILINE_OBJECT
              || is_category (getPropCategory context propA) MULTILINE_FUNCTION); [|lia].
    destruct (value_lines propA), (value_lines propB); lia. }
  destruct (is_category (getPropCategory context propA) REACT_RESERVED); simpl; [|done].
  destruct (Z.eqb_spec iA (-1)), (Z.eqb_spec iB (-1)); simpl; lia.
Qed.

(** X12. [compareProps] answers [0] for an attribute and itself, and it
    never contradicts itself when its arguments are swapped: it calls the
    first greater exactly when, the other way round, it calls it smaller;
    the host's comparison of names is asked to do the same. *)
Theorem compareProps_swap localeCompare context :
  (forall prop, compareProps localeCompare context prop prop = 0)
  /\ ((forall s t, 0 < localeCompare s t <-> localeCompare t s < 0) ->
      forall propA propB,
        0 < compareProps localeCompare context propA propB
        <-> compareProps localeCompare context propB propA < 0).
Proof.
  split; [apply compareProps_self|].
  intros Hswap propA propB. by apply compareProps_swap_sign.
Qed.

Lemma Host_localeCompare_swap s t :
  0 < Host.localeCompare s t <-> Host.localeCompare t s < 0.
Proof.
  revert t. induction s as [|c s IH]; intros [|d t]; simpl; try lia.
  rewrite (Nat.compare_antisym (Ascii.nat_of_ascii c) (Ascii.nat_of_ascii d)).
  destruct (Ascii.nat_of_ascii c ?= Ascii.nat_of_ascii d)%nat; simpl; [apply IH|lia|lia].
Qed.

Lemma compareProps_swap_witness :
  0 < compareProps Host.localeCompare Host.no_options Example.abd Example.abc
  /\ compareProps Host.localeCompare Host.no_options Example.abc Example.abd < 0.
Proof.
  destruct (compareProps_swap Host.localeCompare Host.no_options) as [_ H].
  assert (Hgt : 0 < compareProps Host.localeCompare Host.no_options Example.abd Example.abc)
    by reflexivity.
  split; [exact Hgt|].
  exact (proj1 (H Host_localeCompare_swap Example.abd Example.abc) Hgt).
Defined.

Lemma classified_non_spread context prop : classified context prop -> non_spread prop.
Proof.
  unfold classified, non_spread, getPropCategory, string_name, is_spread.
  by destruct (attr_type prop).
Qed.

Lemma reserved_indexOf context prop name :
  string_name prop = Some name ->
  getPropCategory context prop = REACT_RESERVED ->
  Str.indexOf (reactPropsList context) name <> -1.
Proof.
  intros Hname Hprop.
  destruct (proj1 (reserved_iff _ _ _ Hname) Hprop) as [_ Hin].
  destruct (indexOf_from_includes _ _ 0 Hin); [done|lia].
Qed.

(** Where [compareProps] lets one classified attribute stand before
    another, the first does not rank higher. *)
Lemma in_order_rank_le localeCompare context propA propB :
  classified context propA ->
  classified context propB ->
  in_order (compareProps localeCompare context) propA propB ->
  rank_le (rank context propA) (rank context propB).
Proof.
  unfold classified, in_order, rank_le, rank, compareProps. simpl.
  intros HA HB.
  destruct (category_string_name _ _ HA) as [nameA HnameA].
  destruct (category_string_name _ _ HB) as [nameB HnameB].
  rewrite HnameA, HnameB.
  destruct (is_category_spec (getPropCategory context propA) UNKNOWN); [done|].
  destruct (is_category_spec (getPropCategory context propB) UNKNOWN); [done|].
  simpl.
  destruct (is_category_spec (getPropCategory context propA) (getPropCategory context propB))
    as [E|E]; simpl.
  2: { assert (PROP_CATEGORIES (getPropCategory context propA)
               <> PROP_CATEGORIES (getPropCategory context propB)); [|lia].
       intros Hsame. apply E.
       by destruct (getPropCategory context propA), (getPropCategory context propB). }
  rewrite <- E.
  destruct (is_category_spec (getPropCategory context propA) REACT_RESERVED) as [R|R]; simpl.
  - pose proof (reserved_indexOf _ _ _ HnameA R) as HiA.
    assert (R' : getPropCategory context propB = REACT_RESERVED) by congruence.
    pose proof (reserved_indexOf _ _ _ HnameB R') as HiB.
    destruct (Z.eqb_spec (Str.indexOf (reactPropsList context) nameA) (-1)); [done|].
    destruct (Z.eqb_spec (Str.indexOf (reactPropsList context) nameB) (-1)); [done|].
    simpl. lia.
  - destruct (Nat.eqb_spec (String.length nameA) (String.length nameB)); simpl; lia.
Qed.

Lemma rank_le_trans r s t : rank_le r s -> rank_le s t -> rank_le r t.
Proof. unfold rank_le. lia. Qed.

(** Where [compareProps] does not put the second of two classified
    attributes before the first, the first does not rank higher. *)
Lemma not_less_rank_le localeCompare context propA propB :
  classified context propA ->
  classified context propB ->
  0 <= compareProps localeCompare context propB propA ->
  rank_le (rank context propA) (rank context propB).
Proof.
  unfold classified, rank_le, rank, compareProps. simpl.
  intros HA HB.
  destruct (category_string_name _ _ HA) as [nameA HnameA].
  destruct (category_string_name _ _ HB) as [nameB HnameB].
  rewrite HnameA, HnameB.
  destruct (is_category_spec (getPropCategory context propA) UNKNOWN); [done|].
  destruct (is_category_spec (getPropCategory context propB) UNKNOWN); [done|].
  simpl.
  destruct (is_category_spec (getPropCategory context propB) (getPropCategory context propA))
    as [E|E]; simpl.
  2: { assert (PROP_CATEGORIES (getPropCategory context propA)
               <> PROP_CATEGORIES (getPropCategory context propB)); [|lia].
       intros Hsame. apply E.
       by destruct (getPropCategory context propA), (getPropCategory context propB). }
  rewrite E.
  destruct (is_category_spec (getPropCategory context propA) REACT_RESERVED) as [R|R]; simpl.
  - pose proof (reserved_indexOf _ _ _ HnameA R) as HiA.
    assert (R' : getPropCategory context propB = REACT_RESERVED) by congruence.
    pose proof (reserved_indexOf _ _ _ HnameB R') as HiB.
    destruct (Z.eqb_spec (Str.indexOf (reactPropsList context) nameA) (-1)); [done|].
    destruct (Z.eqb_spec (Str.indexOf (reactPropsList context) nameB) (-1)); [done|].
    simpl. lia.
  - destruct (Nat.eqb_spec (String.length nameB) (String.length nameA)); simpl; lia.
Qed.

(** X13. A list of classified attributes comes out of the sort ranked:
    every attribute stands before all attributes of a higher category, and
    inside a category before all attributes with a later place in the list,
    if the category is [REACT_RESERVED], or with a longer name, if it is
    another. *)
Theorem sorted_by_rank localeCompare context attrs :
  (forall s t, 0 < localeCompare s t -> localeCompare t s <= 0) ->
  Forall (classified context) attrs ->
  StronglySorted (fun propA propB => rank_le (rank context propA) (rank context propB))
    (sortAttributesPreservingSpreadPrecedence localeCompare context attrs).
Proof.
  intros Hantisym Hclassified.
  assert (Hnon_spread : Forall non_spread attrs).
  { eapply Forall_impl; [exact Hclassified|]. apply classified_non_spread. }
  rewrite sortAttributes_sorted_from, sorted_from_non_spread by done. simpl.
  apply Sorted_StronglySorted.
  { intros a b c. apply rank_le_trans. }
  apply (Array_sort_Sorted_by _ _ (classified context)); [| |done].
  - intros a b. apply not_less_rank_le.
  - intros a b Ha Hb Hab. apply (in_order_rank_le localeCompare); [done|done|].
    unfold in_order. lia.
Qed.

Lemma sorted_by_rank_witness :
  StronglySorted
    (fun propA propB => rank_le (rank Host.no_options propA) (rank Host.no_options propB))
    [Example.key; Example.className; Example.asChild; Example.size; Example.buttonText;
     Example.user; Example.onClick; Example.onBlur].
Proof.
  apply (sorted_by_rank Host.localeCompare Host.no_options Example.readme_attributes
           Host_localeCompare_antisym).
  repeat (apply Forall_cons; split; [discriminate|]). apply Forall_nil_2.
Defined.

(** ** The grouping and the sorting together *)

Lemma filter_non_spread_all (group : list Attr) :
  Forall non_spread group -> filter non_spread group = group.
Proof.
  induction 1 as [|attr group Hattr _ IH]; [done|].
  by rewrite filter_cons_True, IH.
Qed.

Lemma filter_spread_none (group : list Attr) :
  Forall non_spread group -> filter (fun attr => is_spread attr = true) group = [].
Proof.
  induction 1 as [|attr group Hattr _ IH]; [done|].
  rewrite filter_cons_False; [done|]. unfold non_spread in Hattr. congruence.
Qed.

Lemma sort_within_closed localeCompare context group spread :
  Forall non_spread group ->
  is_spread spread = true ->
  sort_within localeCompare context (group ++ [spread])
  = Array_sort (compareProps localeCompare context) group ++ [spread].
Proof.
  intros Hgroup Hspread. unfold sort_within. rewrite !filter_app.
  rewrite filter_non_spread_all, filter_spread_none by done.
  rewrite (filter_cons_False non_spread) by (unfold non_spread; congruence).
  rewrite (filter_cons_True (fun attr => is_spread attr = true)) by done.
  rewrite !filter_nil. by rewrite app_nil_r.
Qed.

Lemma sort_within_open localeCompare context group :
  Forall non_spread group ->
  sort_within localeCompare context group
  = Array_sort (compareProps localeCompare context) group.
Proof.
  intros Hgroup. unfold sort_within.
  rewrite filter_non_spread_all, filter_spread_none by done. by rewrite app_nil_r.
Qed.

Lemma groups_from_sorted_from localeCompare context rest currentGroup :
  Forall non_spread currentGroup ->
  concat (sort_within localeCompare context <$> groups_from rest currentGroup)
  = sorted_from localeCompare context rest currentGroup.
Proof.
  revert currentGroup.
  induction rest as [|attr rest IH]; intros currentGroup Hgroup;
    cbn [groups_from sorted_from].
  - destruct currentGroup as [|first others] eqn:E; [done|].
    rewrite <- E in *. rewrite list_fmap_singleton, concat_cons, concat_nil, app_nil_r.
    by apply sort_within_open.
  - destruct (is_spread attr) eqn:Hattr.
    + rewrite fmap_cons, concat_cons.
      rewrite sort_within_closed, (IH []) by (done || constructor).
      by rewrite <- app_assoc.
    + apply IH. apply Forall_app. split; [done|]. by repeat constructor.
Qed.

(** X14. The two functions agree on the groups:
    [sortAttributesPreservingSpreadPrecedence] returns the groups of
    [groupAttributesBySpread] one after the other, each with the attributes
    before its closing spread attribute sorted and that spread attribute
    left at its end. *)
Theorem sorting_goes_group_by_group localeCompare context attrs :
  sortAttributesPreservingSpreadPrecedence localeCompare context attrs
  = concat (sort_within localeCompare context <$> groupAttributesBySpread attrs).
Proof.
  rewrite sortAttributes_sorted_from, groupAttributesBySpread_groups_from.
  symmetry. apply groups_from_sorted_from. constructor.
Qed.

Lemma groups_from_length rest currentGroup :
  Forall non_spread currentGroup ->
  length (groups_from rest currentGroup)
  = (length (filter (fun attr => is_spread attr = true) rest)
     + match last (currentGroup ++ rest) with
       | Some attr => if is_spread attr then 0 else 1
       | None => 0
       end)%nat.
Proof.
  revert currentGroup.
  induction rest as [|attr rest IH]; intros currentGroup Hgroup; cbn [groups_from].
  - rewrite app_nil_r, filter_nil. simpl.
    destruct currentGroup as [|first others] eqn:E; [done|]. rewrite <- E in *.
    destruct (last currentGroup) as [closing|] eqn:Hlast.
    + apply last_Some_elem_of in Hlast. rewrite Forall_forall in Hgroup.
      by rewrite (Hgroup _ Hlast).
    + apply last_None in Hlast. congruence.
  - rewrite last_app_cons.
    destruct (is_spread attr) eqn:Hattr.
    + rewrite filter_cons_True by done. simpl length.
      rewrite (IH []) by constructor. simpl app.
      destruct rest as [|next rest]; [simpl; rewrite Hattr; lia|].
      by rewrite last_cons_cons.
    + rewrite filter_cons_False by congruence.
      rewrite IH by (apply Forall_app; split; [done|by repeat constructor]).
      rewrite <- app_assoc. simpl app. by rewrite last_app_cons.
Qed.

(** X15. [groupAttributesBySpread] returns one group for every spread
    attribute and one more when the last attribute is not a spread
    attribute; for no attribute at all it returns no group. *)
Theorem number_of_groups attrs :
  length (groupAttributesBySpread attrs)
  = (length (filter (fun attr => is_spread attr = true) attrs)
     + match last attrs with
       | Some attr => if is_spread attr then 0 else 1
       | None => 0
       end)%nat.
Proof.
  rewrite groupAttributesBySpread_groups_from. by apply groups_from_length.
Qed.

(** ** The patterns for names *)

Lemma append_cons c (s t : string) : String c s +:+ t = String c (s +:+ t).
Proof. reflexivity. Qed.

Lemma append_length (s t : string) :
  String.length (s +:+ t) = (String.length s + String.length t)%nat.
Proof.
  induction s as [|c s IH]; [done|].
  rewrite append_cons. simpl. by rewrite IH.
Qed.

Lemma startsWith_spec p s : Str.startsWith p s = true <-> exists r, s = p +:+ r.
Proof.
  unfold Str.startsWith. revert s.
  induction p as [|c p IH]; intros s.
  - split; [intros _; exists s; reflexivity|]. by destruct s.
  - destruct s as [|d s]; simpl; [split; [done|by intros [r ?]]|].
    destruct (Ascii.ascii_dec c d) as [->|Hne].
    + rewrite IH. split; intros [r Hr]; exists r.
      * by rewrite append_cons, <- Hr.
      * rewrite append_cons in Hr. by injection Hr.
    + split; [done|]. intros [r Hr]. rewrite append_cons in Hr. by injection Hr.
Qed.

Lemma substring_all s : String.substring 0 (String.length s) s = s.
Proof. induction s as [|c s IH]; simpl; [done|]. by rewrite IH. Qed.

Lemma substring_append q p :
  String.substring (String.length q) (String.length p) (q +:+ p) = p.
Proof.
  induction q as [|c q IH]; [apply substring_all|].
  rewrite append_cons. simpl. exact IH.
Qed.

Lemma substring_tail n s :
  (n <= String.length s)%nat ->
  exists q, s = q +:+ String.substring n (String.length s - n) s.
Proof.
  revert s. induction n as [|n IH]; intros s Hn.
  - exists "". rewrite Nat.sub_0_r. by rewrite substring_all.
  - destruct s as [|c s]; simpl in Hn; [lia|].
    destruct (IH s) as [q Hq]; [lia|].
    exists (String c q). rewrite append_cons. simpl. by rewrite <- Hq.
Qed.

Lemma endsWith_spec p s : Str.endsWith p s = true <-> exists q, s = q +:+ p.
Proof.
  unfold Str.endsWith. rewrite andb_true_iff, Nat.leb_le, String.eqb_eq. split.
  - intros [Hlen Hsub].
    destruct (substring_tail (String.length s - String.length p) s) as [q Hq]; [lia|].
    exists q. rewrite Hq at 1. f_equal. rewrite <- Hsub at 3. f_equal. lia.
  - intros [q ->]. rewrite append_length. split; [lia|].
    replace (String.length q + String.length p - String.length p)%nat
      with (String.length q) by lia.
    apply substring_append.
Qed.

Lemma get_append p r : String.get (String.length p) (p +:+ r) = String.get 0 r.
Proof. induction p as [|c p IH]; [done|]. rewrite append_cons. simpl. exact IH. Qed.

Lemma startsWith_then_upper_spec p s :
  Str.startsWith_then_upper p s = true
  <-> exists c r, s = p +:+ String c r /\ Str.is_upper c = true.
Proof.
  unfold Str.startsWith_then_upper. rewrite andb_true_iff, startsWith_spec. split.
  - intros [[r ->] Hget]. rewrite get_append in Hget.
    destruct r as [|c r]; simpl in Hget; [done|]. by exists c, r.
  - intros (c & r & -> & Hupper). split; [by eexists|].
    by rewrite get_append.
Qed.

(** X16. The pattern for function names holds of exactly the names that
    end with [Handler] or [Callback] or that start with [on], [handle] or
    [toggle] followed by a capital letter from [A] to [Z]; the pattern for
    object names holds of exactly the names that end with [Config],
    [Options], [Props], [Style] or [Data] or start with [obj] or [data]. *)
Theorem patterns_meaning s :
  (PATTERNS.FUNCTION s = true
   <-> (exists q, s = q +:+ "Handler")
       \/ (exists q, s = q +:+ "Callback")
       \/ (exists c r, s = "on" +:+ String c r /\ Str.is_upper c = true)
       \/ (exists c r, s = "handle" +:+ String c r /\ Str.is_upper c = true)
       \/ (exists c r, s = "toggle" +:+ String c r /\ Str.is_upper c = true))
  /\ (PATTERNS.OBJECT s = true
      <-> (exists q, s = q +:+ "Config")
          \/ (exists q, s = q +:+ "Options")
          \/ (exists q, s = q +:+ "Props")
          \/ (exists q, s = q +:+ "Style")
          \/ (exists q, s = q +:+ "Data")
          \/ (exists r, s = "obj" +:+ r)
          \/ (exists r, s = "data" +:+ r)).
Proof.
  unfold PATTERNS.FUNCTION, PATTERNS.OBJECT.
  rewrite !orb_true_iff, !endsWith_spec, !startsWith_then_upper_spec, !startsWith_spec.
  tauto.
Qed.

(** ** The comparator as an order *)

Lemma indexOf_from_range names name i :
  Str.indexOf_from i name names = -1 \/ i <= Str.indexOf_from i name names.
Proof.
  revert i. induction names as [|first names IH]; intros i; simpl; [by left|].
  destruct (String.eqb name first); [lia|]. destruct (IH (i + 1)); lia.
Qed.

Lemma indexOf_from_nth names name i k :
  0 <= i ->
  Str.indexOf_from i name names = i + Z.of_nat k ->
  names !! k = Some name.
Proof.
  revert i k. induction names as [|first names IH]; intros i k Hi; simpl.
  - lia.
  - destruct (String.eqb_spec name first) as [->|Hne].
    + intros Hk. by assert (k = 0%nat) as -> by lia.
    + destruct k as [|k]; intros Hk.
      * destruct (indexOf_from_range names name (i + 1)); lia.
      * simpl. apply (IH (i + 1)); lia.
Qed.

(** Two names found at the same place of the list are the same name. *)
Lemma indexOf_inj names nameA nameB :
  Str.indexOf names nameA <> -1 ->
  Str.indexOf names nameA = Str.indexOf names nameB ->
  nameA = nameB.
Proof.
  unfold Str.indexOf. intros HA Hsame.
  destruct (indexOf_from_range names nameA 0) as [|Hge]; [done|].
  set (k := Z.to_nat (Str.indexOf_from 0 nameA names)).
  assert (H1 : names !! k = Some nameA).
  { apply (indexOf_from_nth names nameA 0 k); unfold k; lia. }
  assert (H2 : names !! k = Some nameB).
  { apply (indexOf_from_nth names nameB 0 k); unfold k; lia. }
  congruence.
Qed.

Lemma PROP_CATEGORIES_inj c d : PROP_CATEGORIES c = PROP_CATEGORIES d -> c = d.
Proof. by destruct c, d. Qed.

(** On classified attributes [compareProps] is the first difference among
    the categories, the places in the list or the lengths of the names, the
    names and the numbers of lines. *)
Lemma compareProps_first_difference localeCompare context propA propB nameA nameB :
  (forall s, localeCompare s s = 0) ->
  (forall s t, localeCompare s t = 0 -> s = t) ->
  classified context propA ->
  classified context propB ->
  string_name propA = Some nameA ->
  string_name propB = Some nameB ->
  compareProps localeCompare context propA propB
  = first_difference
      ((rank context propA).1 - (rank context propB).1)
      ((rank context propA).2 - (rank context propB).2)
      (localeCompare nameA nameB)
      (last_resort context propA - last_resort context propB).
Proof.
  intros Hrefl Hsep HA HB HnameA HnameB.
  unfold compareProps, first_difference, rank, last_resort, classified in *. simpl.
  rewrite HnameA, HnameB.
  destruct (is_category_spec (getPropCategory context propA) UNKNOWN); [done|].
  destruct (is_category_spec (getPropCategory context propB) UNKNOWN); [done|].
  simpl.
  destruct (is_category_spec (getPropCategory context propA) (getPropCategory context propB))
    as [E|E]; simpl.
  2: { destruct (Z.eqb_spec (PROP_CATEGORIES (getPropCategory context propA)
                             - PROP_CATEGORIES (getPropCategory context propB)) 0); [|done].
       destruct E. apply PROP_CATEGORIES_inj. lia. }
  rewrite <- E, Z.sub_diag. simpl.
  destruct (is_category_spec (getPropCategory context propA) REACT_RESERVED) as [R|R]; simpl.
  - pose proof (reserved_indexOf _ _ _ HnameA R) as HiA.
    assert (R' : getPropCategory context propB = REACT_RESERVED) by congruence.
    pose proof (reserved_indexOf _ _ _ HnameB R') as HiB.
    destruct (Z.eqb_spec (Str.indexOf (reactPropsList context) nameA) (-1)); [done|].
    destruct (Z.eqb_spec (Str.indexOf (reactPropsList context) nameB) (-1)); [done|].
    simpl.
    destruct (Z.eqb_spec (Str.indexOf (reactPropsList context) nameA
                          - Str.indexOf (reactPropsList context) nameB) 0) as [Hsame|]; [|done].
    assert (nameA = nameB) as -> by (apply (indexOf_inj (reactPropsList context)); [done|lia]).
    rewrite Hrefl, R. simpl. lia.
  - destruct (Nat.eqb_spec (String.length nameA) (String.length nameB)) as [Hlen|Hlen]; simpl.
    + rewrite Hlen, Z.sub_diag. simpl.
      destruct (String.eqb_spec nameA nameB) as [->|Hne]; simpl.
      * rewrite Hrefl. simpl.
        destruct (is_category_spec (getPropCategory context propA) MULTILINE_OBJECT) as [M|M],
          (is_category_spec (getPropCategory context propA) MULTILINE_FUNCTION) as [F|F];
          simpl; try done.
        all: destruct (category_multiline_value_lines context propA) as [linesA ->];
          [tauto|].
        all: destruct (category_multiline_value_lines context propB) as [linesB ->];
          [rewrite <- E; tauto|].
        all: done.
      * destruct (Z.eqb_spec (localeCompare nameA nameB) 0) as [Hzero|]; [|done].
        by apply Hsep in Hzero.
    + destruct (Z.eqb_spec (Z.of_nat (String.length nameA) - Z.of_nat (String.length nameB)) 0);
        [lia|done].
Qed.

Ltac compare_three lc ctx Hconsistent Hsep propA propB propC HA HB HC :=
  let nameA := fresh "nameA" in
  let nameB := fresh "nameB" in
  let nameC := fresh "nameC" in
  let Hrefl := fresh "Hrefl" in
  destruct (category_string_name _ _ HA) as [nameA ?];
  destruct (category_string_name _ _ HB) as [nameB ?];
  destruct (category_string_name _ _ HC) as [nameC ?];
  pose proof (consistent_refl _ Hconsistent) as Hrefl;
  rewrite ?(compareProps_first_difference lc ctx propA propB nameA nameB),
    ?(compareProps_first_difference lc ctx propB propC nameB nameC),
    ?(compareProps_first_difference lc ctx propA propC nameA nameC),
    ?(compareProps_first_difference lc ctx propB propA nameB nameA),
    ?(compareProps_first_difference lc ctx propA propA nameA nameA)
    by done;
  unfold first_difference;
  destruct (rank ctx propA), (rank ctx propB), (rank ctx propC);
  generalize (last_resort ctx propA) (last_resort ctx propB) (last_resort ctx propC);
  intros ? ? ?; simpl;
  pose proof (consistent_lt_trans _ Hconsistent nameA nameB nameC);
  pose proof (consistent_gt_trans _ Hconsistent nameA nameB nameC);
  pose proof (consistent_sym _ Hconsistent nameA nameB);
  repeat match goal with
         | |- context [?x =? 0] => destruct (Z.eqb_spec x 0)
         end;
  intros;
  repeat match goal with
         | H : lc ?s ?t = 0 |- _ => apply Hsep in H; try subst s; try subst t
         end;
  try pose proof (Hrefl nameA); try pose proof (Hrefl nameB); try pose proof (Hrefl nameC);
  try lia.

Lemma compareProps_consistent_on localeCompare context :
  consistent localeCompare ->
  (forall s t, localeCompare s t = 0 -> s = t) ->
  consistent_on (classified context) (compareProps localeCompare context).
Proof.
  intros Hconsistent Hsep. split.
  - intros a _. apply compareProps_self.
  - intros a b _ _ Hab.
    assert (Hswap : forall s t, 0 < localeCompare s t <-> localeCompare t s < 0).
    { intros s t. split; [apply consistent_gt_lt|apply consistent_lt_gt]; done. }
    pose proof (compareProps_swap_sign localeCompare context a b Hswap).
    pose proof (compareProps_swap_sign localeCompare context b a Hswap).
    lia.
  - intros a b c Ha Hb Hc.
    compare_three localeCompare (context) Hconsistent Hsep a b c Ha Hb Hc.
  - intros a b c Ha Hb Hc.
    compare_three localeCompare (context) Hconsistent Hsep a b c Ha Hb Hc.
  - intros a b c Ha Hb Hc.
    compare_three localeCompare (context) Hconsistent Hsep a b c Ha Hb Hc.
Qed.

(** X17. On the attributes it classifies, [compareProps] is a consistent
    comparator in the sense that [Array.prototype.sort] asks for, provided
    the host's comparison of names is one and tells any two different names
    apart: it then divides the classified attributes into classes that are
    totally ordered. *)
Theorem compareProps_consistent localeCompare context :
  consistent localeCompare ->
  (forall s t, localeCompare s t = 0 -> s = t) ->
  consistent_on (classified context) (compareProps localeCompare context).
Proof. apply compareProps_consistent_on. Qed.

Lemma Host_localeCompare_zero s t : Host.localeCompare s t = 0 -> s = t.
Proof.
  revert t. induction s as [|c s IH]; intros [|d t]; simpl; try done.
  destruct (Nat.compare_spec (Ascii.nat_of_ascii c) (Ascii.nat_of_ascii d)) as [E| |];
    try done.
  intros ->%IH. f_equal.
  by rewrite <- (Ascii.ascii_nat_embedding c), E, Ascii.ascii_nat_embedding.
Qed.

Lemma Host_localeCompare_self s : Host.localeCompare s s = 0.
Proof. induction s as [|c s IH]; simpl; [done|]. by rewrite Nat.compare_refl. Qed.

Lemma Host_localeCompare_consistent : consistent Host.localeCompare.
Proof.
  split.
  - apply Host_localeCompare_self.
  - intros s t ->%Host_localeCompare_zero. apply Host_localeCompare_self.
  - by intros s t u ->%Host_localeCompare_zero.
  - intros s. induction s as [|c s IH]; intros [|d t] [|e u]; simpl; try lia.
    destruct (Nat.compare_spec (Ascii.nat_of_ascii c) (Ascii.nat_of_ascii d)),
      (Nat.compare_spec (Ascii.nat_of_ascii d) (Ascii.nat_of_ascii e)),
      (Nat.compare_spec (Ascii.nat_of_ascii c) (Ascii.nat_of_ascii e));
      try lia. apply IH.
  - intros s. induction s as [|c s IH]; intros [|d t] [|e u]; simpl; try lia.
    destruct (Nat.compare_spec (Ascii.nat_of_ascii c) (Ascii.nat_of_ascii d)),
      (Nat.compare_spec (Ascii.nat_of_ascii d) (Ascii.nat_of_ascii e)),
      (Nat.compare_spec (Ascii.nat_of_ascii c) (Ascii.nat_of_ascii e));
      try lia. apply IH.
Qed.

Lemma compareProps_consistent_witness :
  compareProps Host.localeCompare Host.no_options Example.size Example.buttonText < 0
  /\ compareProps Host.localeCompare Host.no_options Example.buttonText Example.user < 0
  /\ compareProps Host.localeCompare Host.no_options Example.size Example.user < 0.
Proof.
  pose proof (compareProps_consistent Host.localeCompare Host.no_options
                Host_localeCompare_consistent Host_localeCompare_zero) as H.
  assert (H1 : compareProps Host.localeCompare Host.no_options
                 Example.size Example.buttonText < 0) by reflexivity.
  assert (H2 : compareProps Host.localeCompare Host.no_options
                 Example.buttonText Example.user < 0) by reflexivity.
  split; [exact H1|]. split; [exact H2|].
  apply (consistent_on_lt_trans _ _ H Example.size Example.buttonText Example.user);
    (discriminate || assumption).
Defined.

(** X18. For a list of classified attributes, what the model of the sort
    returns is what any stable sort returns: every permutation of the list
    that is sorted by [compareProps] and keeps the attributes that compare
    equal in the order they have in the list is the list that
    [sortAttributesPreservingSpreadPrecedence] returns. *)
Theorem sorted_order_is_unique localeCompare context attrs candidate :
  consistent localeCompare ->
  (forall s t, localeCompare s t = 0 -> s = t) ->
  Forall (classified context) attrs ->
  candidate ≡ₚ attrs ->
  StronglySorted (in_order (compareProps localeCompare context)) candidate ->
  (forall prop,
      classified context prop ->
      filter (fun other => compareProps localeCompare context prop other = 0) candidate
      = filter (fun other => compareProps localeCompare context prop other = 0) attrs) ->
  candidate = sortAttributesPreservingSpreadPrecedence localeCompare context attrs.
Proof.
  intros Hconsistent Hsep Hclassified Hperm Hsorted Hstable.
  pose proof (compareProps_consistent_on localeCompare context Hconsistent Hsep) as Hon.
  assert (Hnon_spread : Forall non_spread attrs).
  { eapply Forall_impl; [exact Hclassified|]. apply classified_non_spread. }
  rewrite sortAttributes_sorted_from, sorted_from_non_spread by done. simpl.
  apply (stable_sorted_unique_on (classified context) _ Hon).
  - by apply Array_sort_Forall.
  - by rewrite Hperm.
  - by apply (Array_sort_StronglySorted_on (classified context) _ Hon).
  - done.
  - intros prop Hprop. rewrite Hstable by done. symmetry.
    by apply (Array_sort_stable_on (classified context) _ Hon).
Qed.

Lemma sorted_order_is_unique_witness :
  [Example.asChild; Example.size; Example.buttonText]
  = sortAttributesPreservingSpreadPrecedence Host.localeCompare Host.no_options
      [Example.size; Example.asChild; Example.buttonText].
Proof.
  apply (sorted_order_is_unique Host.localeCompare Host.no_options
           [Example.size; Example.asChild; Example.buttonText]
           [Example.asChild; Example.size; Example.buttonText]
           Host_localeCompare_consistent Host_localeCompare_zero).
  - repeat (apply Forall_cons; split; [discriminate|]). apply Forall_nil_2.
  - apply Permutation_swap.
  - repeat (apply SSorted_cons; [|repeat (apply Forall_cons; split; [by vm_compute|]);
                                   apply Forall_nil_2]).
    apply SSorted_nil.
  - intros prop Hprop. rewrite !filter_cons, !filter_nil.
    destruct (decide (compareProps Host.localeCompare Host.no_options prop Example.asChild = 0))
      as [Hshorthand|]; [|reflexivity].
    destruct (decide (compareProps Host.localeCompare Host.no_options prop Example.size = 0))
      as [Hstring|]; [|reflexivity].
    exfalso.
    pose proof (compareProps_consistent_on Host.localeCompare Host.no_options
                  Host_localeCompare_consistent Host_localeCompare_zero) as Hon.
    assert (H : compareProps Host.localeCompare Host.no_options Example.asChild Example.size
                = 0).
    { apply (consistent_on_eq_trans _ _ Hon Example.asChild prop Example.size);
        try discriminate; try assumption.
      apply (consistent_on_sym _ _ Hon); [assumption|discriminate|assumption]. }
    discriminate H.
Defined.
